(** * Layer 8 pattern-substitution codec: registry, codec and pipeline composer

    A shallow embedding of [src/extreme_engine.py]: the class
    [GlobalPatternRegistry] (register, lookup, serialize, deserialize), the
    class [Layer8UltraExtremeMapper] (compress, decompress) and the method
    [ExtremeCobolEngine.compress_block], followed by the theorems that settle
    the properties stated about them.

    Python values are modelled as follows.
    - [bytes] and [bytearray] are lists of [byte];
    - Python integers that hold identifiers, sizes and counts are [N];
    - a [dict] is an association list in insertion order with unique keys
      (iteration order of a Python dict is insertion order, and the codec
      sorts the items with a stable sort, so the order is kept in the model);
    - a call that may raise, or a loop that may never finish, returns an
      [outcome]. *)

From Stdlib Require Import List NArith ZArith Arith Lia Bool Permutation.
From Stdlib Require Import Strings.Byte.
From Stdlib Require QArith.
Import ListNotations.

Local Open Scope N_scope.

(* ------------------------------------------------------------------ *)
(** ** Bytes *)

Definition bytes := list byte.

Fixpoint bytes_eqb (a b : bytes) : bool :=
  match a, b with
  | [], [] => true
  | x :: a', y :: b' => Byte.eqb x y && bytes_eqb a' b'
  | _, _ => false
  end.

(** The byte whose value is [n mod 256]. *)
Definition byte_of_N (n : N) : byte :=
  match Byte.of_N (n mod 256) with
  | Some b => b
  | None => x00
  end.

(** [data[i]] for an index the caller has checked to be in range. *)
Definition byte_at (data : bytes) (i : nat) : byte := nth i data x00.

(** [data.startswith(pattern, i)] for [i <= len(data)]: the bytes of [data]
    from position [i] on begin with [pattern]. *)
Fixpoint is_prefix (pattern rest : bytes) : bool :=
  match pattern, rest with
  | [], _ => true
  | _ :: _, [] => false
  | x :: p', y :: r' => Byte.eqb x y && is_prefix p' r'
  end.

Definition startswith (data pattern : bytes) (i : nat) : bool :=
  is_prefix pattern (skipn i data).

(* ------------------------------------------------------------------ *)
(** ** Outcomes of calls *)

(** The exceptions the modelled code raises: [KeyError] from a dict lookup
    (the NotFound condition), [StructError] from [struct.pack] and
    [struct.unpack] (the MalformedRegistry condition), [ValueError] from the
    variable-length integer decoder (the MalformedStream condition) and
    [IntegrityError] (the IntegrityViolation condition). *)
Inductive exn : Type :=
| KeyError
| StructError
| ValueError
| IntegrityError.

(** A call returns a value, raises, or never returns. *)
Inductive outcome (A : Type) : Type :=
| Done (a : A)
| Raise (e : exn)
| Diverge.

Arguments Done {A} a.
Arguments Raise {A} e.
Arguments Diverge {A}.

(* ------------------------------------------------------------------ *)
(** ** Python dicts as insertion-ordered association lists *)

Section Dict.
Context {K V : Type}.
Variable eqb : K -> K -> bool.

(** [d.get(k)]: [None] when the key is absent. *)
Fixpoint dict_get (d : list (K * V)) (k : K) : option V :=
  match d with
  | [] => None
  | (k', v) :: d' => if eqb k' k then Some v else dict_get d' k
  end.

(** [d[k] = v]: an existing key keeps its position and takes the new
    value, a new key goes to the end. *)
Fixpoint dict_set (d : list (K * V)) (k : K) (v : V) : list (K * V) :=
  match d with
  | [] => [(k, v)]
  | (k', v') :: d' =>
      if eqb k' k then (k', v) :: d' else (k', v') :: dict_set d' k v
  end.

Definition dict_keys (d : list (K * V)) : list K := map fst d.
End Dict.

(* ------------------------------------------------------------------ *)
(** ** GlobalPatternRegistry *)

Record GlobalPatternRegistry : Type := mkRegistry {
  pattern_to_id : list (bytes * N);
  id_to_pattern : list (N * bytes);
  next_id : N
}.

(** [GlobalPatternRegistry.__init__]. *)
Definition empty_registry : GlobalPatternRegistry :=
  {| pattern_to_id := []; id_to_pattern := []; next_id := 0 |}.

(** [GlobalPatternRegistry.register]: the identifier and the registry after
    the call. *)
Definition register (r : GlobalPatternRegistry) (pattern : bytes)
  : N * GlobalPatternRegistry :=
  match dict_get bytes_eqb (pattern_to_id r) pattern with
  | Some pid => (pid, r)
  | None =>
      let pid := next_id r in
      (pid,
       {| pattern_to_id := dict_set bytes_eqb (pattern_to_id r) pattern pid;
          id_to_pattern := dict_set N.eqb (id_to_pattern r) pid pattern;
          next_id := next_id r + 1 |})
  end.

(** [GlobalPatternRegistry.lookup]: [None] stands for the [KeyError]. *)
Definition lookup (r : GlobalPatternRegistry) (pid : N) : option bytes :=
  dict_get N.eqb (id_to_pattern r) pid.

(** The registry obtained from a fresh one by registering the patterns of
    [ps] from left to right. *)
Definition registry_of (ps : list bytes) : GlobalPatternRegistry :=
  fold_left (fun r p => snd (register r p)) ps empty_registry.

(** *** struct.pack(">I", n) and struct.unpack(">I", b) *)

(** Four bytes, most significant first; [None] is the [struct.error] for a
    value that does not fit 32 bits. *)
Definition pack_u32 (n : N) : option bytes :=
  if n <? 2 ^ 32
  then Some [byte_of_N (n / 2 ^ 24); byte_of_N (n / 2 ^ 16);
             byte_of_N (n / 2 ^ 8); byte_of_N n]
  else None.

(** [None] is the [struct.error] for a buffer that is not exactly 4 bytes. *)
Definition unpack_u32 (b : bytes) : option N :=
  match b with
  | [b0; b1; b2; b3] =>
      Some (Byte.to_N b0 * 2 ^ 24 + Byte.to_N b1 * 2 ^ 16
            + Byte.to_N b2 * 2 ^ 8 + Byte.to_N b3)
  | _ => None
  end.

(** *** serialize *)

(** The records written by the loop over [id_to_pattern.items()]. *)
Fixpoint serialize_records (items : list (N * bytes)) : outcome bytes :=
  match items with
  | [] => Done []
  | (pid, pat) :: items' =>
      match pack_u32 pid, pack_u32 (N.of_nat (length pat)) with
      | Some bpid, Some blen =>
          match serialize_records items' with
          | Done rest => Done (bpid ++ blen ++ pat ++ rest)
          | other => other
          end
      | _, _ => Raise StructError
      end
  end.

(** [GlobalPatternRegistry.serialize]. *)
Definition serialize (r : GlobalPatternRegistry) : outcome bytes :=
  match pack_u32 (N.of_nat (length (id_to_pattern r))) with
  | Some bcount =>
      match serialize_records (id_to_pattern r) with
      | Done recs => Done (bcount ++ recs)
      | other => other
      end
  | None => Raise StructError
  end.

(** *** deserialize *)

(** One record of the loop body: the registry after the three assignments. *)
Definition store_record (r : GlobalPatternRegistry) (pid : N) (pat : bytes)
  : GlobalPatternRegistry :=
  {| pattern_to_id := dict_set bytes_eqb (pattern_to_id r) pat pid;
     id_to_pattern := dict_set N.eqb (id_to_pattern r) pid pat;
     next_id := N.max (next_id r) (pid + 1) |}.

(** The loop [for _ in range(count)]. The [io.BytesIO] buffer is the list of
    bytes not read yet: [buf.read(n)] returns [firstn n] of it (fewer than
    [n] bytes when fewer remain) and leaves [skipn n]. The registry is
    mutated in place, so the registry reached when [struct.unpack] raises is
    returned with the exception. *)
Fixpoint deserialize_loop (count : nat) (r : GlobalPatternRegistry)
  (buf : bytes) : GlobalPatternRegistry * outcome unit :=
  match count with
  | O => (r, Done tt)
  | S count' =>
      match unpack_u32 (firstn 4 buf) with
      | None => (r, Raise StructError)
      | Some pid =>
          let buf1 := skipn 4 buf in
          match unpack_u32 (firstn 4 buf1) with
          | None => (r, Raise StructError)
          | Some length =>
              let buf2 := skipn 4 buf1 in
              let pat := firstn (N.to_nat length) buf2 in
              deserialize_loop count' (store_record r pid pat)
                (skipn (N.to_nat length) buf2)
          end
      end
  end.

(** [GlobalPatternRegistry.deserialize]. *)
Definition deserialize (r : GlobalPatternRegistry) (data : bytes)
  : GlobalPatternRegistry * outcome unit :=
  let count_bytes := firstn 4 data in
  match count_bytes with
  | [] => (r, Done tt)
  | _ =>
      match unpack_u32 count_bytes with
      | None => (r, Raise StructError)
      | Some count => deserialize_loop (N.to_nat count) r (skipn 4 data)
      end
  end.

(* ------------------------------------------------------------------ *)
(** ** VarIntCodec *)

(** Modelled from the spec: the class [VarIntCodec] lives in [engine.py],
    which is not among the sources. The spec describes it as a
    self-terminating encoding with a most-significant-bit-per-byte
    continuation scheme: [encode(uint) -> bytes] and
    [decode(bytes, offset) -> (uint, bytes_consumed)]. The model is the
    usual base-128 encoding, seven payload bits per byte, least significant
    group first, the top bit set on every byte but the last. *)
Fixpoint varint_encode_groups (fuel : nat) (value : N) : bytes :=
  match fuel with
  | O => []
  | S fuel' =>
      if value <? 128
      then [byte_of_N value]
      else byte_of_N (value mod 128 + 128)
           :: varint_encode_groups fuel' (value / 128)
  end.

(** Modelled from the spec: [VarIntCodec.encode]. A value of [s] binary
    digits has at most [s] groups, which bounds the loop. *)
Definition varint_encode (value : N) : bytes :=
  varint_encode_groups (S (N.to_nat (N.size value))) value.

(** Modelled from the spec: the loop of [VarIntCodec.decode] over the bytes
    from the offset on. [None] is the error raised when the buffer ends
    before a byte without continuation bit is met. *)
Fixpoint varint_decode_from (rest : bytes) (scale value : N)
  (bytes_read : nat) : option (N * nat) :=
  match rest with
  | [] => None
  | b :: rest' =>
      let value' := value + (Byte.to_N b mod 128) * scale in
      if 128 <=? Byte.to_N b
      then varint_decode_from rest' (scale * 128) value' (S bytes_read)
      else Some (value', S bytes_read)
  end.

(** Modelled from the spec: [VarIntCodec.decode(data, offset)]. *)
Definition varint_decode (data : bytes) (offset : nat) : option (N * nat) :=
  varint_decode_from (skipn offset data) 1 0 0%nat.

(* ------------------------------------------------------------------ *)
(** ** hashlib.sha256 *)

(** The digest function of the Python standard library (FIPS 180-4), over
    32-bit words held in [N]. The round constants [K] and the initial hash
    value [H0] are written in decimal. *)
Module SHA256.

Definition w32 (x : N) : N := x mod 2 ^ 32.
Definition rotr (n x : N) : N :=
  N.lor (N.shiftr x n) (w32 (N.shiftl x (32 - n))).
Definition lnot32 (x : N) : N := N.lxor x 0xffffffff.
Definition Ch (x y z : N) : N :=
  N.lxor (N.land x y) (N.land (lnot32 x) z).
Definition Maj (x y z : N) : N :=
  N.lxor (N.lxor (N.land x y) (N.land x z)) (N.land y z).
Definition Sigma0 (x : N) : N :=
  N.lxor (N.lxor (rotr 2 x) (rotr 13 x)) (rotr 22 x).
Definition Sigma1 (x : N) : N :=
  N.lxor (N.lxor (rotr 6 x) (rotr 11 x)) (rotr 25 x).
Definition sigma0 (x : N) : N :=
  N.lxor (N.lxor (rotr 7 x) (rotr 18 x)) (N.shiftr x 3).
Definition sigma1 (x : N) : N :=
  N.lxor (N.lxor (rotr 17 x) (rotr 19 x)) (N.shiftr x 10).

Definition K : list N :=
  [1116352408; 1899447441; 3049323471; 3921009573;
   961987163; 1508970993; 2453635748; 2870763221;
   3624381080; 310598401; 607225278; 1426881987;
   1925078388; 2162078206; 2614888103; 3248222580;
   3835390401; 4022224774; 264347078; 604807628;
   770255983; 1249150122; 1555081692; 1996064986;
   2554220882; 2821834349; 2952996808; 3210313671;
   3336571891; 3584528711; 113926993; 338241895;
   666307205; 773529912; 1294757372; 1396182291;
   1695183700; 1986661051; 2177026350; 2456956037;
   2730485921; 2820302411; 3259730800; 3345764771;
   3516065817; 3600352804; 4094571909; 275423344;
   430227734; 506948616; 659060556; 883997877;
   958139571; 1322822218; 1537002063; 1747873779;
   1955562222; 2024104815; 2227730452; 2361852424;
   2428436474; 2756734187; 3204031479; 3329325298].

Definition H0 : list N :=
  [1779033703; 3144134277; 1013904242; 2773480762;
   1359893119; 2600822924; 528734635; 1541459225].

(** One round on the working variables [a..h], kept as a list of eight. *)
Definition round (k wt : N) (s : list N) : list N :=
  match s with
  | [a; b; c; d; e; f; g; h] =>
      let t1 := h + Sigma1 e + Ch e f g + k + wt in
      let t2 := Sigma0 a + Maj a b c in
      [w32 (t1 + t2); a; b; c; w32 (d + t1); e; f; g]
  | _ => s
  end.

(** The 64 rounds; [w] is the window [W t .. W (t+15)] of the message
    schedule. *)
Fixpoint rounds (ks w s : list N) : list N :=
  match ks with
  | [] => s
  | k :: ks' =>
      let wnew := w32 (sigma1 (nth 14 w 0) + nth 9 w 0
                       + sigma0 (nth 1 w 0) + nth 0 w 0) in
      rounds ks' (tl w ++ [wnew]) (round k (nth 0 w 0) s)
  end.

Fixpoint words_of (n : nat) (block : list N) : list N :=
  match n, block with
  | S n', b0 :: b1 :: b2 :: b3 :: rest =>
      (b0 * 2 ^ 24 + b1 * 2 ^ 16 + b2 * 2 ^ 8 + b3) :: words_of n' rest
  | _, _ => []
  end.

Definition process_block (h block : list N) : list N :=
  map (fun p => w32 (fst p + snd p))
      (combine h (rounds K (words_of 16 block) h)).

Fixpoint blocks (n : nat) (h msg : list N) : list N :=
  match n with
  | O => h
  | S n' => blocks n' (process_block h (firstn 64 msg)) (skipn 64 msg)
  end.

Definition be_bytes (width : nat) (x : N) : list N :=
  map (fun i => (x / 2 ^ (8 * N.of_nat i)) mod 256) (rev (seq 0 width)).

Definition pad (msg : list N) : list N :=
  let len := N.of_nat (length msg) in
  let zeros := N.to_nat ((64 - (len + 9) mod 64) mod 64) in
  msg ++ [0x80] ++ repeat 0 zeros ++ be_bytes 8 (8 * len).

Definition digest (msg : bytes) : bytes :=
  let padded := pad (map Byte.to_N msg) in
  map byte_of_N
      (flat_map (be_bytes 4) (blocks (length padded / 64) H0 padded)).

End SHA256.

(** [hashlib.sha256(data).digest()]. *)
Definition sha256 (data : bytes) : bytes := SHA256.digest data.

(* ------------------------------------------------------------------ *)
(** ** Metadata of a compressed block *)

(** [config.CompressionLayer]. *)
Inductive CompressionLayer : Type :=
| L1_SEMANTIC_MAPPING
| L2_STRUCTURAL_MAPPING
| L3_DELTA_ENCODING
| L4_VARIABLE_BITPACKING
| L5_ADVANCED_RLE
| L6_CROSS_BLOCK_PATTERNS
| L7_PATTERN_REFINEMENT
| L8_ULTRA_EXTREME_MAPPING.

(** Modelled from the spec: the dataclass [CompressionMetadata] is declared
    in [engine.py], which is not among the sources. The record has the
    fields that [compress] sets in its constructor call; the spec lists them
    as original size, compressed size, derived ratio, the ordered stages
    applied and the digest of the original bytes. The three remaining fields
    of the dataclass (dictionary versions, timestamp, entropy score) keep
    their defaults and are neither read nor written by the code below. An
    absent digest is the empty byte string, which is what the truth test
    [if metadata.integrity_hash] of [decompress] treats as absent. The float
    [compression_ratio] is kept as the exact quotient. *)
Record CompressionMetadata : Type := mkMetadata {
  block_id : N;
  original_size : N;
  compressed_size : N;
  compression_ratio : QArith_base.Q;
  layers_applied : list CompressionLayer;
  integrity_hash : bytes
}.

Definition set_original_size (m : CompressionMetadata) (n : N)
  : CompressionMetadata :=
  {| block_id := block_id m; original_size := n;
     compressed_size := compressed_size m;
     compression_ratio := compression_ratio m;
     layers_applied := layers_applied m;
     integrity_hash := integrity_hash m |}.

Definition set_integrity_hash (m : CompressionMetadata) (h : bytes)
  : CompressionMetadata :=
  {| block_id := block_id m; original_size := original_size m;
     compressed_size := compressed_size m;
     compression_ratio := compression_ratio m;
     layers_applied := layers_applied m;
     integrity_hash := h |}.

Definition set_layers_applied (m : CompressionMetadata)
  (ls : list CompressionLayer) : CompressionMetadata :=
  {| block_id := block_id m; original_size := original_size m;
     compressed_size := compressed_size m;
     compression_ratio := compression_ratio m;
     layers_applied := ls;
     integrity_hash := integrity_hash m |}.

(** [(original_size / len(compressed_bytes)) if len(compressed_bytes) > 0
    else 1.0]. *)
Definition ratio_of (original compressed : N) : QArith_base.Q :=
  if 0 <? compressed
  then QArith_base.Qmake (Z.of_N original) (Z.to_pos (Z.of_N compressed))
  else QArith_base.Qmake 1 1.

(* ------------------------------------------------------------------ *)
(** ** Layer8UltraExtremeMapper *)

(** Reserved value for pattern pointers. *)
Definition ESCAPE_BYTE : byte := xfe.

(** *** compress *)

(** [sorted(items, key=lambda kv: -len(kv[0]))]. Python's sort is stable:
    items of equal key keep their order. An insertion sort that puts an item
    in front of the first item that is not longer gives that list. *)
Fixpoint insert_by_length (kv : bytes * N) (l : list (bytes * N))
  : list (bytes * N) :=
  match l with
  | [] => [kv]
  | kv' :: l' =>
      if (length (fst kv') <=? length (fst kv))%nat
      then kv :: kv' :: l'
      else kv' :: insert_by_length kv l'
  end.

Fixpoint sort_by_length (l : list (bytes * N)) : list (bytes * N) :=
  match l with
  | [] => []
  | kv :: l' => insert_by_length kv (sort_by_length l')
  end.

Definition sorted_patterns (r : GlobalPatternRegistry) : list (bytes * N) :=
  sort_by_length (pattern_to_id r).

(** The inner [for pattern, pid in sorted_patterns] loop with its [break]:
    the first item whose pattern occurs at position [i]. *)
Fixpoint find_match (sorted : list (bytes * N)) (data : bytes) (i : nat)
  : option (bytes * N) :=
  match sorted with
  | [] => None
  | (pattern, pid) :: sorted' =>
      if startswith data pattern i
      then Some (pattern, pid)
      else find_match sorted' data i
  end.

(** The loop [while i < len(data)]. Every iteration that does not stall
    moves [i] forward, so [len(data)] iterations are enough whenever the
    loop ends at all; [fuel] counts them and [Diverge] is the loop that
    never ends (lemma [compress_loop_diverges] below). *)
Fixpoint compress_loop (fuel : nat) (sorted : list (bytes * N))
  (data : bytes) (i : nat) (output : bytes) : outcome bytes :=
  if (i <? length data)%nat then
    match fuel with
    | O => Diverge
    | S fuel' =>
        match find_match sorted data i with
        | Some (pattern, pid) =>
            compress_loop fuel' sorted data (i + length pattern)
              (output ++ ESCAPE_BYTE :: varint_encode pid)
        | None =>
            compress_loop fuel' sorted data (i + 1)
              (output ++ [byte_at data i])
        end
    end
  else Done output.

(** [Layer8UltraExtremeMapper.compress]. *)
Definition compress (r : GlobalPatternRegistry) (data : bytes)
  : outcome (bytes * CompressionMetadata) :=
  let original_size := N.of_nat (length data) in
  match compress_loop (length data) (sorted_patterns r) data 0 [] with
  | Done compressed_bytes =>
      Done (compressed_bytes,
            {| block_id := 0;
               original_size := original_size;
               compressed_size := N.of_nat (length compressed_bytes);
               compression_ratio :=
                 ratio_of original_size (N.of_nat (length compressed_bytes));
               layers_applied := [L8_ULTRA_EXTREME_MAPPING];
               integrity_hash := sha256 data |})
  | Raise e => Raise e
  | Diverge => Diverge
  end.

(** *** decompress *)

(** The loop [while i < len(data)] of decompress. Every iteration moves [i]
    forward by at least one, so [len(data)] iterations always suffice
    (lemma [decompress_loop_terminates] below). *)
Fixpoint decompress_loop (fuel : nat) (r : GlobalPatternRegistry)
  (data : bytes) (i : nat) (output : bytes) : outcome bytes :=
  if (i <? length data)%nat then
    match fuel with
    | O => Diverge
    | S fuel' =>
        let byte := byte_at data i in
        if Byte.eqb byte ESCAPE_BYTE then
          match varint_decode data (i + 1) with
          | None => Raise ValueError
          | Some (pid, consumed) =>
              match lookup r pid with
              | None => Raise KeyError
              | Some pattern =>
                  decompress_loop fuel' r data (i + 1 + consumed)
                    (output ++ pattern)
              end
          end
        else decompress_loop fuel' r data (i + 1) (output ++ [byte])
    end
  else Done output.

(** The bytes rebuilt by the scan, before the digest is looked at. *)
Definition reconstruct (r : GlobalPatternRegistry) (data : bytes)
  : outcome bytes :=
  decompress_loop (length data) r data 0 [].

(** The check after the loop: a non-empty [integrity_hash] must equal the
    digest of the result. *)
Definition verify_integrity (result : bytes) (metadata : CompressionMetadata)
  : outcome bytes :=
  match integrity_hash metadata with
  | [] => Done result
  | _ :: _ =>
      if bytes_eqb (sha256 result) (integrity_hash metadata)
      then Done result
      else Raise IntegrityError
  end.

(** [Layer8UltraExtremeMapper.decompress]. *)
Definition decompress (r : GlobalPatternRegistry) (data : bytes)
  (metadata : CompressionMetadata) : outcome bytes :=
  match reconstruct r data with
  | Done result => verify_integrity result metadata
  | other => other
  end.

(** Compress, then decompress what came out with the metadata that came
    out. *)
Definition roundtrip (r : GlobalPatternRegistry) (data : bytes)
  : outcome bytes :=
  match compress r data with
  | Done (compressed_bytes, metadata) => decompress r compressed_bytes metadata
  | Raise e => Raise e
  | Diverge => Diverge
  end.

(* ------------------------------------------------------------------ *)
(** ** ExtremeCobolEngine *)

(** [ExtremeCobolEngine.compress_block]. The inner engine ([CobolEngine] of
    [engine.py], an external collaborator) is the function [inner]: its
    [compress_block] maps bytes to bytes and a metadata record. The two
    branches mutate the record they return; the model returns the updated
    record. *)
Definition compress_block
  (inner : bytes -> bytes * CompressionMetadata)
  (r : GlobalPatternRegistry) (data : bytes)
  : outcome (bytes * CompressionMetadata) :=
  match compress r data with
  | Done (l8_out, l8_meta) =>
      let (final_out, final_meta) := inner l8_out in
      if bytes_eqb final_out l8_out then
        Done (l8_out,
              set_integrity_hash
                (set_original_size l8_meta (N.of_nat (length data)))
                (sha256 data))
      else
        Done (final_out,
              set_integrity_hash
                (set_original_size
                   (set_layers_applied final_meta
                      (L8_ULTRA_EXTREME_MAPPING :: layers_applied final_meta))
                   (N.of_nat (length data)))
                (sha256 data))
  | Raise e => Raise e
  | Diverge => Diverge
  end.

(* ------------------------------------------------------------------ *)
(** ** The decisions of the compress scan *)

(** What one iteration of the compress loop decides: a byte copied as it
    is, or a registered pattern replaced by a pointer to its identifier. *)
Inductive token : Type :=
| Lit (b : byte)
| Ptr (pattern : bytes) (pid : N).

(** The bytes the iteration appends to the output. *)
Definition emit (t : token) : bytes :=
  match t with
  | Lit b => [b]
  | Ptr _ pid => ESCAPE_BYTE :: varint_encode pid
  end.

(** The bytes of the input the iteration consumes. *)
Definition expand (t : token) : bytes :=
  match t with
  | Lit b => [b]
  | Ptr pattern _ => pattern
  end.

(** The compress loop with its decisions recorded instead of its output
    (lemma [compress_loop_scan] relates the two). *)
Fixpoint scan (fuel : nat) (sorted : list (bytes * N)) (data : bytes)
  (i : nat) : outcome (list token) :=
  if (i <? length data)%nat then
    match fuel with
    | O => Diverge
    | S fuel' =>
        match find_match sorted data i with
        | Some (pattern, pid) =>
            match scan fuel' sorted data (i + length pattern) with
            | Done toks => Done (Ptr pattern pid :: toks)
            | other => other
            end
        | None =>
            match scan fuel' sorted data (i + 1) with
            | Done toks => Done (Lit (byte_at data i) :: toks)
            | other => other
            end
        end
    end
  else Done [].

(** What decompress can read back: a copied byte that is not the marker, a
    pointer whose identifier the registry resolves to the pattern. *)
Definition decodable (r : GlobalPatternRegistry) (t : token) : Prop :=
  match t with
  | Lit b => b <> ESCAPE_BYTE
  | Ptr pattern pid => lookup r pid = Some pattern
  end.

(** The bijection invariant of the data model, as far as the codec relies on
    it: the identifier of every registered pattern looks up to that
    pattern. *)
Definition registry_consistent (r : GlobalPatternRegistry) : Prop :=
  forall pattern pid,
    In (pattern, pid) (pattern_to_id r) -> lookup r pid = Some pattern.

(** No registered pattern is empty. *)
Definition patterns_nonempty (r : GlobalPatternRegistry) : Prop :=
  forall pattern pid, In (pattern, pid) (pattern_to_id r) -> pattern <> [].

(** The identifiers [0 .. n-1] in order. *)
Definition first_ids (n : nat) : list N := map N.of_nat (seq 0 n).

(** The registry whose patterns are [qs], numbered from zero in order. *)
Definition numbered (qs : list bytes) : GlobalPatternRegistry :=
  {| pattern_to_id := combine qs (first_ids (length qs));
     id_to_pattern := combine (first_ids (length qs)) qs;
     next_id := N.of_nat (length qs) |}.

(** The patterns of [ps] not yet in [seen], appended to [seen] in order of
    first occurrence. *)
Fixpoint first_seen (seen ps : list bytes) : list bytes :=
  match ps with
  | [] => seen
  | p :: ps' =>
      if existsb (bytes_eqb p) seen
      then first_seen seen ps'
      else first_seen (seen ++ [p]) ps'
  end.

Definition bytes_eq_dec : forall a b : bytes, {a = b} + {a <> b} :=
  list_eq_dec Byte.byte_eq_dec.

(** Every pointer names an item of the sorted list; every copied byte is a
    byte of the input at a position where no item matched. *)
Definition token_from (sorted : list (bytes * N)) (data : bytes) (t : token)
  : Prop :=
  match t with
  | Lit b =>
      exists i, (i < length data)%nat /\ b = byte_at data i
                /\ find_match sorted data i = None
  | Ptr pattern pid => In (pattern, pid) sorted
  end.

(** Longer patterns stand before shorter ones. *)
Inductive longest_first : list (bytes * N) -> Prop :=
| longest_first_nil : longest_first []
| longest_first_cons kv l :
    (forall kv', In kv' l -> (length (fst kv') <= length (fst kv))%nat) ->
    longest_first l -> longest_first (kv :: l).

(** The registry after storing the records of [items] in order. *)
Definition store_all (r : GlobalPatternRegistry) (items : list (N * bytes))
  : GlobalPatternRegistry :=
  fold_left (fun r kv => store_record r (fst kv) (snd kv)) items r.

(** The items of a numbered registry, starting at identifier [k]. *)
Definition items_from (k : nat) (qs : list bytes) : list (N * bytes) :=
  combine (map N.of_nat (seq k (length qs))) qs.

(* ------------------------------------------------------------------ *)
(** ** ExtremeCobolEngine.decompress_block *)

Definition layer_eqb (a b : CompressionLayer) : bool :=
  match a, b with
  | L1_SEMANTIC_MAPPING, L1_SEMANTIC_MAPPING
  | L2_STRUCTURAL_MAPPING, L2_STRUCTURAL_MAPPING
  | L3_DELTA_ENCODING, L3_DELTA_ENCODING
  | L4_VARIABLE_BITPACKING, L4_VARIABLE_BITPACKING
  | L5_ADVANCED_RLE, L5_ADVANCED_RLE
  | L6_CROSS_BLOCK_PATTERNS, L6_CROSS_BLOCK_PATTERNS
  | L7_PATTERN_REFINEMENT, L7_PATTERN_REFINEMENT
  | L8_ULTRA_EXTREME_MAPPING, L8_ULTRA_EXTREME_MAPPING => true
  | _, _ => false
  end.

(** The record [md_copy]: every field of [metadata] copied, with
    [layers_applied] replaced by the list comprehension that drops this
    layer. *)
Definition md_copy (metadata : CompressionMetadata) : CompressionMetadata :=
  {| block_id := block_id metadata;
     original_size := original_size metadata;
     compressed_size := compressed_size metadata;
     compression_ratio := compression_ratio metadata;
     layers_applied :=
       filter (fun l => negb (layer_eqb l L8_ULTRA_EXTREME_MAPPING))
              (layers_applied metadata);
     integrity_hash := integrity_hash metadata |}.

(** [ExtremeCobolEngine.decompress_block]. The inner engine is the function
    [inner]: its [decompress_block] maps bytes and a metadata record to
    bytes, or raises. An exception of [layer8.decompress] propagates before
    the inner engine is called. *)
Definition decompress_block
  (inner : bytes -> CompressionMetadata -> outcome bytes)
  (r : GlobalPatternRegistry) (data : bytes) (metadata : CompressionMetadata)
  : outcome bytes :=
  match decompress r data metadata with
  | Done l8_data => inner l8_data (md_copy metadata)
  | Raise e => Raise e
  | Diverge => Diverge
  end.

(* ------------------------------------------------------------------ *)
(** ** Registry states the operations can reach *)

(** The registries obtained from a fresh one by [register] and
    [deserialize] calls, in any order and on any arguments (a call of
    [deserialize] that raises included: its mutations stay). *)
Inductive reachable : GlobalPatternRegistry -> Prop :=
| reachable_init : reachable empty_registry
| reachable_register r pattern :
    reachable r -> reachable (snd (register r pattern))
| reachable_deserialize r data :
    reachable r -> reachable (fst (deserialize r data)).

(** Every identifier held by either dict is below the counter. *)
Definition ids_below_counter (r : GlobalPatternRegistry) : Prop :=
  (forall pattern pid, In (pattern, pid) (pattern_to_id r) -> pid < next_id r)
  /\ (forall pid pattern,
        In (pid, pattern) (id_to_pattern r) -> pid < next_id r).

(** Every identifier a pattern maps to is a key of [id_to_pattern]. *)
Definition ids_resolvable (r : GlobalPatternRegistry) : Prop :=
  forall pattern pid,
    In (pattern, pid) (pattern_to_id r) -> lookup r pid <> None.

(** The four properties every reachable registry has. *)
Definition registry_inv (r : GlobalPatternRegistry) : Prop :=
  NoDup (dict_keys (pattern_to_id r))
  /\ NoDup (dict_keys (id_to_pattern r))
  /\ ids_below_counter r
  /\ ids_resolvable r.

(** What [struct.pack] needs of a registry: the number of entries, every
    identifier and every pattern length fit 32 bits. *)
Definition fits_u32 (r : GlobalPatternRegistry) : Prop :=
  N.of_nat (length (id_to_pattern r)) < 2 ^ 32
  /\ Forall (fun kv => fst kv < 2 ^ 32
                       /\ N.of_nat (length (snd kv)) < 2 ^ 32)
            (id_to_pattern r).

(** The size in bytes of the snapshot of a list of items: the count field
    and, for each record, the two fixed fields and the pattern. *)
Definition snapshot_size (items : list (N * bytes)) : nat :=
  (4 + list_sum (map (fun kv => 8 + length (snd kv)) items))%nat.

(* ------------------------------------------------------------------ *)
(** ** Concrete registries and inputs used in the examples *)

(** The registry and the input of the worked example of the spec. *)
Definition example_registry : GlobalPatternRegistry :=
  registry_of [[x41; x41; x41; x41]].

Definition example_input : bytes :=
  [x41; x41; x41; x41; x42; x43; x41; x41; x41; x41].

Definition example_l8_out : bytes := [xfe; x00; x42; x43; xfe; x00].

Definition example_l8_meta : CompressionMetadata :=
  {| block_id := 0; original_size := 10; compressed_size := 6;
     compression_ratio := ratio_of 10 6;
     layers_applied := [L8_ULTRA_EXTREME_MAPPING];
     integrity_hash := sha256 example_input |}.

Definition example_snapshot : bytes :=
  [x00; x00; x00; x01;
   x00; x00; x00; x00;
   x00; x00; x00; x04;
   x41; x41; x41; x41].

(** Three patterns, two of them of one length. *)
Definition tie_registry : GlobalPatternRegistry :=
  registry_of [[x41; x41]; [x41]; [x42; x42]].

(** Metadata whose digest is the digest of another byte string. *)
Definition foreign_metadata : CompressionMetadata :=
  {| block_id := 0; original_size := 1; compressed_size := 2;
     compression_ratio := ratio_of 1 2;
     layers_applied := [L8_ULTRA_EXTREME_MAPPING];
     integrity_hash := sha256 [x42] |}.

(** A stand-in for the inner pipeline that appends one byte and reports
    one stage of its own. *)
Definition appending_pipeline (b : bytes) : bytes * CompressionMetadata :=
  (b ++ [x00],
   {| block_id := 7; original_size := N.of_nat (length b);
      compressed_size := N.of_nat (length b) + 1;
      compression_ratio := ratio_of (N.of_nat (length b))
                             (N.of_nat (length b) + 1);
      layers_applied := [L1_SEMANTIC_MAPPING];
      integrity_hash := sha256 b |}).

(** A stand-in for a pipeline that applies no stage. *)
Definition idle_pipeline (b : bytes) : bytes * CompressionMetadata :=
  (b, {| block_id := 0; original_size := N.of_nat (length b);
         compressed_size := N.of_nat (length b);
         compression_ratio := ratio_of 1 1;
         layers_applied := [];
         integrity_hash := sha256 b |}).

(** The registry holding AA, A and BB under 0, 1 and 2 after the snapshot
    of the registry holding AAAA under 0 was merged into it. *)
Definition merged_registry : GlobalPatternRegistry :=
  fst (deserialize tie_registry example_snapshot).

(* ================================================================== *)
(** * Properties *)

(** ** The models on known values *)

(** The digest of the empty string and of the three bytes abc, as
    published with the standard. *)
Example sha256_empty :
  map Byte.to_N (sha256 [])
  = [227; 176; 196; 66; 152; 252; 28; 20; 154; 251; 244; 200; 153; 111;
     185; 36; 39; 174; 65; 228; 100; 155; 147; 76; 164; 149; 153; 27; 120;
     82; 184; 85].
Proof. vm_compute. reflexivity. Qed.

Example sha256_abc :
  map Byte.to_N (sha256 [x61; x62; x63])
  = [186; 120; 22; 191; 143; 1; 207; 234; 65; 65; 64; 222; 93; 174; 34; 35;
     176; 3; 97; 163; 150; 23; 122; 156; 180; 16; 255; 97; 242; 0; 21; 173].
Proof. vm_compute. reflexivity. Qed.

(** The worked example of the spec: with AAAA registered under 0 the input
    AAAABCAAAA is compressed to marker 0, B, C, marker 0, six bytes for
    ten, and decompressed to itself. *)
Example spec_worked_example :
  compress example_registry example_input
  = Done (example_l8_out, example_l8_meta)
  /\ compressed_size example_l8_meta = 6
  /\ decompress example_registry example_l8_out example_l8_meta
     = Done example_input.
Proof. repeat split; vm_compute; reflexivity. Qed.

Example varint_encode_300 : varint_encode 300 = [xac; x02].
Proof. reflexivity. Qed.

(** ** Bytes and dicts *)

Lemma byte_eqb_refl (b : byte) : Byte.eqb b b = true.
Proof. now apply Byte.byte_dec_lb. Qed.

Lemma byte_eqb_eq (a b : byte) : Byte.eqb a b = true <-> a = b.
Proof.
  split; [apply Byte.byte_dec_bl | apply Byte.byte_dec_lb].
Qed.

Lemma bytes_eqb_eq (a b : bytes) : bytes_eqb a b = true <-> a = b.
Proof.
  revert b; induction a as [|x a IH]; intros [|y b]; simpl;
    try (split; [discriminate | discriminate]); try tauto.
  rewrite andb_true_iff, byte_eqb_eq, IH.
  split; [intros [-> ->]; reflexivity | intros E; injection E; auto].
Qed.

Lemma bytes_eqb_refl (a : bytes) : bytes_eqb a a = true.
Proof. now apply bytes_eqb_eq. Qed.

Lemma bytes_eqb_neq (a b : bytes) : bytes_eqb a b = false <-> a <> b.
Proof.
  rewrite <- bytes_eqb_eq. destruct (bytes_eqb a b); split; congruence.
Qed.

Lemma to_N_byte_of_N (n : N) : Byte.to_N (byte_of_N n) = n mod 256.
Proof.
  unfold byte_of_N.
  destruct (Byte.of_N (n mod 256)) as [b|] eqn:E.
  - now apply Byte.to_of_N.
  - apply Byte.of_N_None_iff in E.
    pose proof (N.mod_upper_bound n 256 ltac:(discriminate)). lia.
Qed.

Lemma byte_of_N_to_N (b : byte) : byte_of_N (Byte.to_N b) = b.
Proof.
  unfold byte_of_N.
  rewrite N.mod_small by (pose proof (Byte.to_N_bounded b); lia).
  now rewrite Byte.of_to_N.
Qed.

Section DictFacts.
Context {K V : Type}.
Variable eqb : K -> K -> bool.
Hypothesis eqb_eq : forall x y, eqb x y = true <-> x = y.

Lemma eqb_same x : eqb x x = true.
Proof. now apply eqb_eq. Qed.

Lemma eqb_diff x y : x <> y -> eqb x y = false.
Proof.
  intros H. destruct (eqb x y) eqn:E; [|reflexivity].
  now apply eqb_eq in E.
Qed.

Lemma dict_get_set_same (d : list (K * V)) k v :
  dict_get eqb (dict_set eqb d k v) k = Some v.
Proof.
  induction d as [|[k' v'] d IH]; simpl.
  - now rewrite eqb_same.
  - destruct (eqb k' k) eqn:E; simpl; rewrite E; auto.
Qed.

Lemma dict_get_set_other (d : list (K * V)) k v k' :
  k' <> k -> dict_get eqb (dict_set eqb d k v) k' = dict_get eqb d k'.
Proof.
  intros Hne. induction d as [|[k0 v0] d IH]; simpl.
  - now rewrite eqb_diff by congruence.
  - destruct (eqb k0 k) eqn:E; simpl.
    + apply eqb_eq in E; subst k0.
      now rewrite eqb_diff by congruence.
    + now rewrite IH.
Qed.

Lemma dict_get_Some_In (d : list (K * V)) k v :
  dict_get eqb d k = Some v -> In (k, v) d.
Proof.
  induction d as [|[k' v'] d IH]; simpl; [discriminate|].
  destruct (eqb k' k) eqn:E.
  - apply eqb_eq in E; subst. intros [= ->]. now left.
  - intros H. right. auto.
Qed.

Lemma dict_get_None_notin (d : list (K * V)) k :
  dict_get eqb d k = None <-> ~ In k (dict_keys d).
Proof.
  induction d as [|[k' v'] d IH]; simpl; [tauto|].
  destruct (eqb k' k) eqn:E.
  - apply eqb_eq in E; subst. split; [discriminate | tauto].
  - rewrite IH. split; [|tauto].
    intros H [H1|H1]; [|tauto]. subst. now rewrite eqb_same in E.
Qed.

Lemma In_dict_get (d : list (K * V)) k v :
  NoDup (dict_keys d) -> In (k, v) d -> dict_get eqb d k = Some v.
Proof.
  induction d as [|[k' v'] d IH]; simpl; [tauto|].
  intros Hnd [H|H]; inversion Hnd; subst.
  - injection H as -> ->. now rewrite eqb_same.
  - destruct (eqb k' k) eqn:E.
    + apply eqb_eq in E; subst. exfalso.
      apply H2. now apply (in_map fst) in H.
    + auto.
Qed.

Lemma dict_set_absent (d : list (K * V)) k v :
  dict_get eqb d k = None -> dict_set eqb d k v = d ++ [(k, v)].
Proof.
  induction d as [|[k' v'] d IH]; simpl; [reflexivity|].
  destruct (eqb k' k); [discriminate|].
  intros H. now rewrite IH.
Qed.

Lemma dict_set_present (d : list (K * V)) k v :
  dict_get eqb d k = Some v -> dict_set eqb d k v = d.
Proof.
  induction d as [|[k' v'] d IH]; simpl; [discriminate|].
  destruct (eqb k' k) eqn:E.
  - intros [= ->]. reflexivity.
  - intros H. now rewrite IH.
Qed.

Lemma dict_keys_set (d : list (K * V)) k v :
  dict_keys (dict_set eqb d k v)
  = match dict_get eqb d k with
    | Some _ => dict_keys d
    | None => dict_keys d ++ [k]
    end.
Proof.
  induction d as [|[k' v'] d IH]; simpl; [reflexivity|].
  destruct (eqb k' k) eqn:E; simpl; [reflexivity|].
  rewrite IH. now destruct (dict_get eqb d k).
Qed.
End DictFacts.

Lemma N_eqb_eq (x y : N) : N.eqb x y = true <-> x = y.
Proof. apply N.eqb_eq. Qed.

(* ------------------------------------------------------------------ *)
(** ** The registry: register *)

Lemma first_ids_length n : length (first_ids n) = n.
Proof. unfold first_ids. now rewrite length_map, length_seq. Qed.

Lemma first_ids_S n : first_ids (S n) = first_ids n ++ [N.of_nat n].
Proof. unfold first_ids. now rewrite seq_S, map_app. Qed.

Lemma first_ids_In n x : In x (first_ids n) <-> x < N.of_nat n.
Proof.
  unfold first_ids. rewrite in_map_iff. split.
  - intros [k [<- Hk]]. apply in_seq in Hk. lia.
  - intros H. exists (N.to_nat x). split; [lia|]. apply in_seq. lia.
Qed.

Lemma first_ids_NoDup n : NoDup (first_ids n).
Proof.
  unfold first_ids. generalize (seq_NoDup n 0).
  induction (seq 0 n) as [|a l IH]; simpl; intros H; [constructor|].
  inversion H; subst. constructor; [|auto].
  rewrite in_map_iff. intros [b [Hb Hin]].
  apply N2Nat.inj_iff in Hb. rewrite !Nat2N.id in Hb. now subst.
Qed.

Lemma keys_combine_l {A B} (l : list A) (l' : list B) :
  length l = length l' -> dict_keys (combine l l') = l.
Proof.
  revert l'; induction l as [|a l IH]; intros [|b l']; simpl;
    try discriminate; auto.
  intros [= H]. unfold dict_keys in *. now rewrite IH.
Qed.

Lemma combine_snoc {A B} (l : list A) (l' : list B) a b :
  length l = length l' ->
  combine (l ++ [a]) (l' ++ [b]) = combine l l' ++ [(a, b)].
Proof.
  revert l'; induction l as [|x l IH]; intros [|y l']; simpl;
    try discriminate; auto.
  intros [= H]. now rewrite IH.
Qed.

Lemma numbered_pattern_keys qs : dict_keys (pattern_to_id (numbered qs)) = qs.
Proof. apply keys_combine_l. now rewrite first_ids_length. Qed.

Lemma numbered_id_keys qs :
  dict_keys (id_to_pattern (numbered qs)) = first_ids (length qs).
Proof. apply keys_combine_l. now rewrite first_ids_length. Qed.

Lemma numbered_snoc qs p :
  numbered (qs ++ [p])
  = {| pattern_to_id := pattern_to_id (numbered qs) ++ [(p, N.of_nat (length qs))];
       id_to_pattern := id_to_pattern (numbered qs) ++ [(N.of_nat (length qs), p)];
       next_id := N.of_nat (length qs) + 1 |}.
Proof.
  unfold numbered; simpl.
  rewrite length_app; simpl. rewrite Nat.add_1_r, first_ids_S.
  rewrite !combine_snoc by (now rewrite first_ids_length).
  f_equal. lia.
Qed.

(** Registering an unknown pattern in a numbered registry numbers it next. *)
Lemma register_numbered_new qs p :
  ~ In p qs ->
  register (numbered qs) p = (N.of_nat (length qs), numbered (qs ++ [p])).
Proof.
  intros Hnew. unfold register.
  assert (Hp : dict_get bytes_eqb (pattern_to_id (numbered qs)) p = None).
  { apply (dict_get_None_notin _ bytes_eqb_eq).
    now rewrite numbered_pattern_keys. }
  assert (Hi : dict_get N.eqb (id_to_pattern (numbered qs))
                 (next_id (numbered qs)) = None).
  { apply (dict_get_None_notin _ N_eqb_eq).
    rewrite numbered_id_keys, first_ids_In. simpl. lia. }
  rewrite Hp.
  rewrite (dict_set_absent _ _ _ _ Hp).
  rewrite (dict_set_absent _ _ _ _ Hi).
  now rewrite numbered_snoc.
Qed.

(** Registering a known pattern changes nothing. *)
Lemma register_numbered_known qs p :
  In p qs ->
  exists pid, register (numbered qs) p = (pid, numbered qs)
              /\ pid < N.of_nat (length qs).
Proof.
  intros Hin. unfold register.
  destruct (dict_get bytes_eqb (pattern_to_id (numbered qs)) p) as [pid|] eqn:E.
  - exists pid. split; [reflexivity|].
    apply (dict_get_Some_In _ bytes_eqb_eq) in E. simpl in E.
    apply in_combine_r in E. now apply first_ids_In in E.
  - apply (dict_get_None_notin _ bytes_eqb_eq) in E.
    now rewrite numbered_pattern_keys in E.
Qed.

Lemma existsb_bytes_In p seen :
  existsb (bytes_eqb p) seen = true <-> In p seen.
Proof.
  rewrite existsb_exists. split.
  - intros [x [Hx E]]. apply bytes_eqb_eq in E. now subst.
  - intros H. exists p. split; [assumption | apply bytes_eqb_refl].
Qed.

Lemma fold_register_numbered ps : forall seen,
  fold_left (fun r p => snd (register r p)) ps (numbered seen)
  = numbered (first_seen seen ps).
Proof.
  induction ps as [|p ps IH]; intros seen; simpl; [reflexivity|].
  destruct (existsb (bytes_eqb p) seen) eqn:E.
  - apply existsb_bytes_In in E.
    destruct (register_numbered_known seen p E) as [pid [-> _]]. simpl.
    apply IH.
  - assert (~ In p seen) by (rewrite <- existsb_bytes_In; congruence).
    rewrite register_numbered_new by assumption. simpl. apply IH.
Qed.

(** A registry built by register calls is numbered in order of first
    registration. *)
Lemma registry_of_numbered ps : registry_of ps = numbered (first_seen [] ps).
Proof. apply (fold_register_numbered ps []). Qed.

Lemma first_seen_spec ps : forall seen,
  NoDup seen ->
  NoDup (first_seen seen ps)
  /\ (forall p, In p (first_seen seen ps) <-> In p seen \/ In p ps).
Proof.
  induction ps as [|p ps IH]; intros seen Hnd; simpl.
  - split; [assumption | tauto].
  - destruct (existsb (bytes_eqb p) seen) eqn:E.
    + apply existsb_bytes_In in E.
      destruct (IH seen Hnd) as [H1 H2]. split; [assumption|].
      intros q. rewrite H2. intuition (subst; auto).
    + assert (Hp : ~ In p seen) by (rewrite <- existsb_bytes_In; congruence).
      assert (Hnd' : NoDup (seen ++ [p])).
      { apply NoDup_app; [assumption | constructor; [tauto | constructor] |].
        intros x Hx [<-|[]]. tauto. }
      destruct (IH _ Hnd') as [H1 H2]. split; [assumption|].
      intros q. rewrite H2, in_app_iff. simpl. intuition (subst; auto).
Qed.

Lemma first_seen_length ps :
  length (first_seen [] ps) = length (nodup bytes_eq_dec ps).
Proof.
  destruct (first_seen_spec ps [] (NoDup_nil _)) as [Hnd Hin].
  apply Permutation_length, NoDup_Permutation;
    [assumption | apply NoDup_nodup |].
  intros p. rewrite Hin, nodup_In. simpl. tauto.
Qed.

Lemma numbered_entries qs : length (pattern_to_id (numbered qs)) = length qs.
Proof. simpl. rewrite length_combine, first_ids_length. lia. Qed.

Lemma numbered_ids_below qs q qid :
  In (q, qid) (pattern_to_id (numbered qs)) -> qid < N.of_nat (length qs).
Proof. simpl. intros H. apply in_combine_r in H. now apply first_ids_In in H. Qed.

(** Idempotence holds in every registry state. *)
Lemma register_twice r p :
  register (snd (register r p)) p = register r p.
Proof.
  unfold register at 2 3.
  destruct (dict_get bytes_eqb (pattern_to_id r) p) as [pid|] eqn:E; simpl.
  - unfold register. now rewrite E.
  - unfold register. simpl.
    now rewrite (dict_get_set_same _ bytes_eqb_eq).
Qed.

(** C6. [register] is idempotent and numbers patterns from zero. In every
    registry state a second [register] of the same pattern returns the same
    identifier and leaves the registry as the first call left it. In a
    registry built by register calls from a fresh one, the number of entries
    equals the number of distinct patterns registered, a known pattern
    allocates nothing, and an unknown pattern gets the identifier equal to
    the current number of entries (zero for the first), which no existing
    entry carries, and adds exactly one entry. *)
Theorem register_idempotent_sequential :
  (forall r p, register (snd (register r p)) p = register r p)
  /\ (forall ps,
        length (pattern_to_id (registry_of ps))
        = length (nodup bytes_eq_dec ps))
  /\ (forall ps p, In p ps ->
        snd (register (registry_of ps) p) = registry_of ps)
  /\ (forall ps p, ~ In p ps ->
        let r := registry_of ps in
        fst (register r p) = N.of_nat (length (pattern_to_id r))
        /\ length (pattern_to_id (snd (register r p)))
           = S (length (pattern_to_id r))
        /\ (forall q qid, In (q, qid) (pattern_to_id r) ->
              qid <> fst (register r p))).
Proof.
  split; [exact register_twice|].
  split; [|split].
  - intros ps. now rewrite registry_of_numbered, numbered_entries,
      first_seen_length.
  - intros ps p Hin. rewrite registry_of_numbered.
    destruct (first_seen_spec ps [] (NoDup_nil _)) as [_ Hs].
    destruct (register_numbered_known (first_seen [] ps) p) as [pid [-> _]];
      [apply Hs; now right | reflexivity].
  - intros ps p Hnew r. subst r. rewrite registry_of_numbered.
    destruct (first_seen_spec ps [] (NoDup_nil _)) as [_ Hs].
    rewrite register_numbered_new by (rewrite Hs; simpl; tauto).
    cbn [fst snd]. rewrite !numbered_entries, length_app. simpl.
    split; [reflexivity|]. split; [lia|].
    intros q qid Hq. apply numbered_ids_below in Hq. lia.
Qed.

Lemma register_idempotent_sequential_witness :
  ~ In [x42] [[x41; x41; x41; x41]]
  /\ fst (register example_registry [x42])
     = N.of_nat (length (pattern_to_id example_registry))
  /\ length (pattern_to_id (snd (register example_registry [x42])))
     = S (length (pattern_to_id example_registry)).
Proof.
  assert (H : ~ In [x42] [[x41; x41; x41; x41]])
    by (simpl; intuition discriminate).
  split; [exact H|].
  pose proof (proj2 (proj2 (proj2 register_idempotent_sequential))
                [[x41; x41; x41; x41]] [x42] H) as [H1 [H2 _]].
  split; [exact H1 | exact H2].
Defined.

(* ------------------------------------------------------------------ *)
(** ** The variable-length integer codec *)

Lemma varint_groups_nonempty fuel value :
  varint_encode_groups (S fuel) value <> [].
Proof. simpl. destruct (value <? 128); discriminate. Qed.

Lemma varint_groups_decode fuel : forall value rest scale acc k,
  fuel <> O -> value < 128 ^ N.of_nat fuel ->
  varint_decode_from (varint_encode_groups fuel value ++ rest) scale acc k
  = Some (acc + value * scale,
          (k + length (varint_encode_groups fuel value))%nat).
Proof.
  induction fuel as [|fuel IH]; intros value rest scale acc k Hf Hv;
    [congruence|].
  cbn [varint_encode_groups].
  destruct (value <? 128) eqn:E.
  - apply N.ltb_lt in E. cbn [app varint_decode_from length].
    rewrite to_N_byte_of_N, (N.mod_small value 256) by lia.
    rewrite (N.mod_small value 128) by lia.
    replace (128 <=? value) with false by (symmetry; apply N.leb_gt; lia).
    f_equal. f_equal. lia.
  - apply N.ltb_ge in E. cbn [app varint_decode_from length].
    pose proof (N.mod_upper_bound value 128 ltac:(discriminate)) as Hm.
    rewrite to_N_byte_of_N.
    rewrite (N.mod_small (value mod 128 + 128) 256) by (clear - Hm; lia).
    replace (128 <=? value mod 128 + 128) with true
      by (symmetry; apply N.leb_le; generalize (value mod 128); intros; lia).
    assert (Hq : value / 128 < 128 ^ N.of_nat fuel).
    { apply N.Div0.div_lt_upper_bound.
      rewrite Nat2N.inj_succ, N.pow_succ_r' in Hv. lia. }
    assert (Hf' : fuel <> O).
    { intros ->. simpl in Hv. lia. }
    rewrite IH by assumption.
    f_equal. f_equal; [|lia].
    replace ((value mod 128 + 128) mod 128) with (value mod 128).
    + pose proof (N.div_mod value 128 ltac:(discriminate)). lia.
    + rewrite <- (N.Div0.add_mod_idemp_r _ 128 128), N.Div0.mod_same, N.add_0_r.
      now rewrite N.Div0.mod_mod.
Qed.

Lemma varint_fuel_enough value :
  value < 128 ^ N.of_nat (S (N.to_nat (N.size value))).
Proof.
  rewrite Nat2N.inj_succ, N2Nat.id.
  apply N.lt_le_trans with (2 ^ N.size value); [apply N.size_gt|].
  apply N.le_trans with (128 ^ N.size value).
  - apply N.pow_le_mono_l. lia.
  - apply N.pow_le_mono_r; lia.
Qed.

Lemma varint_encode_nonempty value : varint_encode value <> [].
Proof. apply varint_groups_nonempty. Qed.

Lemma skipn_length_app {A} (pre rest : list A) :
  skipn (length pre) (pre ++ rest) = rest.
Proof. induction pre; simpl; auto. Qed.

(** Decoding at the offset where an encoding starts gives the value back and
    consumes exactly the encoding. *)
Lemma varint_decode_encode pre value rest :
  varint_decode (pre ++ varint_encode value ++ rest) (length pre)
  = Some (value, length (varint_encode value)).
Proof.
  unfold varint_decode.
  rewrite skipn_length_app.
  unfold varint_encode.
  rewrite varint_groups_decode;
    [| discriminate | apply varint_fuel_enough].
  f_equal. f_equal. lia.
Qed.

(* ------------------------------------------------------------------ *)
(** ** Prefixes and positions *)

Lemma is_prefix_split pattern : forall rest,
  is_prefix pattern rest = true ->
  rest = pattern ++ skipn (length pattern) rest.
Proof.
  induction pattern as [|x p IH]; intros [|y rest]; simpl;
    try reflexivity; try discriminate.
  rewrite andb_true_iff, byte_eqb_eq. intros [-> H]. f_equal. auto.
Qed.

Lemma is_prefix_app pattern rest : is_prefix pattern (pattern ++ rest) = true.
Proof.
  induction pattern as [|x p IH]; simpl; [reflexivity|].
  now rewrite byte_eqb_refl.
Qed.

(** Two patterns of one length that both occur at a position are equal. *)
Lemma is_prefix_same_length p : forall q rest,
  is_prefix p rest = true -> is_prefix q rest = true ->
  length p = length q -> p = q.
Proof.
  induction p as [|x p IH]; intros [|y q] [|z rest]; simpl;
    try discriminate; try reflexivity.
  rewrite !andb_true_iff, !byte_eqb_eq.
  intros [-> Hp] [-> Hq] [= Hlen]. f_equal. eauto.
Qed.

Lemma startswith_split data pattern i :
  startswith data pattern i = true ->
  skipn i data = pattern ++ skipn (i + length pattern) data.
Proof.
  unfold startswith. intros H. apply is_prefix_split in H.
  rewrite skipn_skipn in H. now rewrite (Nat.add_comm i).
Qed.

Lemma skipn_byte_at data : forall i,
  (i < length data)%nat ->
  skipn i data = byte_at data i :: skipn (i + 1) data.
Proof.
  unfold byte_at.
  induction data as [|b data IH]; intros [|i]; simpl; intros H;
    try lia; try reflexivity.
  apply IH. lia.
Qed.

Lemma byte_at_app pre b rest : byte_at (pre ++ b :: rest) (length pre) = b.
Proof. unfold byte_at. now rewrite nth_middle. Qed.

Lemma byte_at_In data i : (i < length data)%nat -> In (byte_at data i) data.
Proof. intros H. now apply nth_In. Qed.

(* ------------------------------------------------------------------ *)
(** ** The compress scan *)

Lemma find_match_Some sorted data i pattern pid :
  find_match sorted data i = Some (pattern, pid) ->
  In (pattern, pid) sorted /\ startswith data pattern i = true.
Proof.
  induction sorted as [|[q qid] sorted IH]; simpl; [discriminate|].
  destruct (startswith data q i) eqn:E.
  - intros [= -> ->]. auto.
  - intros H. destruct (IH H). auto.
Qed.

Lemma find_match_None sorted data i :
  find_match sorted data i = None <->
  (forall pattern pid, In (pattern, pid) sorted ->
     startswith data pattern i = false).
Proof.
  induction sorted as [|[q qid] sorted IH]; simpl.
  - split; [intros _ ? ? [] | reflexivity].
  - destruct (startswith data q i) eqn:E.
    + split; [discriminate|]. intros H.
      specialize (H q qid (or_introl eq_refl)). congruence.
    + rewrite IH. split.
      * intros H p pid [[= <- <-]|Hin]; eauto.
      * intros H p pid Hin. eauto.
Qed.

(** The output of the loop is the output so far followed by what each
    decision emits. *)
Lemma compress_loop_scan sorted data fuel : forall i output,
  compress_loop fuel sorted data i output
  = match scan fuel sorted data i with
    | Done toks => Done (output ++ flat_map emit toks)
    | Raise e => Raise e
    | Diverge => Diverge
    end.
Proof.
  induction fuel as [|fuel IH]; intros i output; simpl.
  - destruct (i <? length data)%nat; [reflexivity|].
    simpl. now rewrite app_nil_r.
  - destruct (i <? length data)%nat;
      [|simpl; now rewrite app_nil_r].
    destruct (find_match sorted data i) as [[p pid]|].
    + rewrite IH.
      destruct (scan fuel sorted data (i + length p)); try reflexivity.
      cbn [flat_map emit]. now rewrite <- app_assoc.
    + rewrite IH.
      destruct (scan fuel sorted data (i + 1)); try reflexivity.
      cbn [flat_map emit]. now rewrite <- app_assoc.
Qed.

(** The decisions consume the input from the position on, exactly. *)
Lemma scan_expand sorted data fuel : forall i toks,
  scan fuel sorted data i = Done toks ->
  flat_map expand toks = skipn i data.
Proof.
  induction fuel as [|fuel IH]; intros i toks; simpl.
  - destruct (i <? length data)%nat eqn:E; [discriminate|].
    intros [= <-]. apply Nat.ltb_ge in E. simpl.
    symmetry. now apply skipn_all2.
  - destruct (i <? length data)%nat eqn:E.
    + apply Nat.ltb_lt in E.
      destruct (find_match sorted data i) as [[p pid]|] eqn:F.
      * destruct (scan fuel sorted data (i + length p)) eqn:S;
          try discriminate.
        intros [= <-]. cbn [flat_map expand].
        apply find_match_Some in F. destruct F as [_ F].
        rewrite (startswith_split _ _ _ F). f_equal. now apply IH.
      * destruct (scan fuel sorted data (i + 1)) eqn:S; try discriminate.
        intros [= <-]. cbn [flat_map expand].
        rewrite (skipn_byte_at _ _ E). simpl. f_equal. now apply IH.
    + intros [= <-]. apply Nat.ltb_ge in E. simpl.
      symmetry. now apply skipn_all2.
Qed.

Lemma scan_tokens sorted data fuel : forall i toks,
  scan fuel sorted data i = Done toks ->
  Forall (token_from sorted data) toks.
Proof.
  induction fuel as [|fuel IH]; intros i toks; simpl.
  - destruct (i <? length data)%nat; [discriminate|].
    intros [= <-]. constructor.
  - destruct (i <? length data)%nat eqn:E; [|intros [= <-]; constructor].
    apply Nat.ltb_lt in E.
    destruct (find_match sorted data i) as [[p pid]|] eqn:F.
    + destruct (scan fuel sorted data (i + length p)) eqn:S;
        try discriminate.
      intros [= <-]. constructor; [|eauto].
      simpl. now apply find_match_Some in F.
    + destruct (scan fuel sorted data (i + 1)) eqn:S; try discriminate.
      intros [= <-]. constructor; [|eauto].
      simpl. eauto.
Qed.

(** When no item of the list is the empty pattern, the scan ends within
    [len(data) - i] iterations. *)
Lemma scan_terminates sorted data :
  (forall pattern pid, In (pattern, pid) sorted -> pattern <> []) ->
  forall fuel i, (length data - i <= fuel)%nat ->
  exists toks, scan fuel sorted data i = Done toks.
Proof.
  intros Hne. induction fuel as [|fuel IH]; intros i Hf; simpl.
  - destruct (i <? length data)%nat eqn:E; [|eauto].
    apply Nat.ltb_lt in E. lia.
  - destruct (i <? length data)%nat eqn:E; [|eauto].
    apply Nat.ltb_lt in E.
    destruct (find_match sorted data i) as [[p pid]|] eqn:F.
    + apply find_match_Some in F. destruct F as [Hin _].
      assert (length p <> 0)%nat.
      { specialize (Hne p pid Hin). destruct p; [congruence | discriminate]. }
      destruct (IH (i + length p)%nat) as [toks ->]; [lia | eauto].
    + destruct (IH (i + 1)%nat) as [toks ->]; [lia | eauto].
Qed.

(* ------------------------------------------------------------------ *)
(** ** The decompress scan *)

Lemma ltb_length_app {A} (pre : list A) x rest :
  (length pre <? length (pre ++ x :: rest))%nat = true.
Proof. apply Nat.ltb_lt. rewrite length_app. simpl. lia. Qed.

(** One iteration on a byte that is not the marker. *)
Lemma decompress_loop_literal fuel r pre b rest output :
  b <> ESCAPE_BYTE ->
  decompress_loop (S fuel) r (pre ++ b :: rest) (length pre) output
  = decompress_loop fuel r ((pre ++ [b]) ++ rest) (length (pre ++ [b]))
      (output ++ [b]).
Proof.
  intros Hb. cbn [decompress_loop].
  rewrite ltb_length_app, byte_at_app.
  destruct (Byte.eqb b ESCAPE_BYTE) eqn:E;
    [apply byte_eqb_eq in E; contradiction|].
  rewrite <- app_assoc, length_app. reflexivity.
Qed.

(** One iteration on a pointer the registry resolves. *)
Lemma decompress_loop_pointer fuel r pre pid pattern rest output :
  lookup r pid = Some pattern ->
  decompress_loop (S fuel) r
    (pre ++ ESCAPE_BYTE :: varint_encode pid ++ rest) (length pre) output
  = decompress_loop fuel r
      ((pre ++ ESCAPE_BYTE :: varint_encode pid) ++ rest)
      (length (pre ++ ESCAPE_BYTE :: varint_encode pid))
      (output ++ pattern).
Proof.
  intros Hl. cbn [decompress_loop].
  rewrite ltb_length_app, byte_at_app, byte_eqb_refl.
  replace (length pre + 1)%nat with (length (pre ++ [ESCAPE_BYTE]))
    by (rewrite length_app; reflexivity).
  replace (pre ++ ESCAPE_BYTE :: varint_encode pid ++ rest)
    with ((pre ++ [ESCAPE_BYTE]) ++ varint_encode pid ++ rest)
    by (now rewrite <- app_assoc).
  rewrite varint_decode_encode, Hl.
  f_equal.
  - rewrite <- !app_assoc. reflexivity.
  - rewrite !length_app. simpl. lia.
Qed.

(** Reading back what decodable decisions emitted gives what they
    consumed. *)
Lemma decompress_loop_tokens r toks : forall fuel pre output,
  Forall (decodable r) toks ->
  (length (flat_map emit toks) <= fuel)%nat ->
  decompress_loop fuel r (pre ++ flat_map emit toks) (length pre) output
  = Done (output ++ flat_map expand toks).
Proof.
  induction toks as [|t toks IH]; intros fuel pre output Hdec Hfuel.
  - simpl. rewrite !app_nil_r.
    destruct fuel; simpl; now rewrite Nat.ltb_irrefl.
  - inversion Hdec as [|? ? Ht Hrest]; subst.
    cbn [flat_map] in *. rewrite length_app in Hfuel.
    destruct t as [b|p pid]; cbn [emit expand app] in *.
    + destruct fuel as [|fuel]; [simpl in Hfuel; lia|].
      rewrite decompress_loop_literal by exact Ht.
      rewrite IH; [| assumption | simpl in Hfuel; lia].
      now rewrite <- app_assoc.
    + destruct fuel as [|fuel]; [simpl in Hfuel; lia|].
      rewrite (decompress_loop_pointer _ _ _ _ p) by exact Ht.
      rewrite IH; [| assumption | simpl in Hfuel; lia].
      now rewrite <- app_assoc.
Qed.

(* ------------------------------------------------------------------ *)
(** ** The sorted pattern list *)

Lemma insert_by_length_perm kv l :
  Permutation (insert_by_length kv l) (kv :: l).
Proof.
  induction l as [|kv' l IH]; simpl; [reflexivity|].
  destruct (length (fst kv') <=? length (fst kv))%nat; [reflexivity|].
  rewrite IH. apply perm_swap.
Qed.

Lemma sort_by_length_perm l : Permutation (sort_by_length l) l.
Proof.
  induction l as [|kv l IH]; simpl; [reflexivity|].
  rewrite insert_by_length_perm. now constructor.
Qed.

Lemma sorted_patterns_In r kv :
  In kv (sorted_patterns r) <-> In kv (pattern_to_id r).
Proof.
  unfold sorted_patterns. split; apply Permutation_in;
    [| symmetry]; apply sort_by_length_perm.
Qed.

Lemma insert_by_length_sorted kv l :
  longest_first l -> longest_first (insert_by_length kv l).
Proof.
  induction 1 as [|kv' l Hall Hl IH]; simpl.
  - constructor; [intros ? [] | constructor].
  - match goal with |- context [if ?c then _ else _] => destruct c eqn:E end.
    + apply Nat.leb_le in E. constructor; [|now constructor].
      intros x [<-|Hx]; [assumption|].
      apply Nat.le_trans with (length (fst kv')); [apply (Hall x Hx) | exact E].
    + apply Nat.leb_gt in E. constructor; [|assumption].
      intros x Hx. apply (Permutation_in _ (insert_by_length_perm kv l)) in Hx.
      destruct Hx as [<-|Hx]; [apply Nat.lt_le_incl; exact E | auto].
Qed.

Lemma sort_by_length_sorted l : longest_first (sort_by_length l).
Proof.
  induction l as [|kv l IH]; simpl; [constructor|].
  now apply insert_by_length_sorted.
Qed.

(** In a longest-first list the first match is a longest match. *)
Lemma find_match_longest sorted data i pattern pid :
  longest_first sorted ->
  find_match sorted data i = Some (pattern, pid) ->
  forall q qid, In (q, qid) sorted -> startswith data q i = true ->
  (length q <= length pattern)%nat.
Proof.
  induction 1 as [|[p0 id0] l Hall Hl IH]; simpl; [discriminate|].
  destruct (startswith data p0 i) eqn:E.
  - intros [= -> ->] q qid [[= -> ->]|Hin] _; [lia|].
    apply (Hall _ Hin).
  - intros H q qid [[= -> ->]|Hin] Hq; [congruence|]. eauto.
Qed.

(* ------------------------------------------------------------------ *)
(** ** Compress followed by decompress *)

Arguments sha256 : simpl never.

Lemma verify_integrity_own_digest data m :
  integrity_hash m = sha256 data -> verify_integrity data m = Done data.
Proof.
  unfold verify_integrity. intros ->.
  destruct (sha256 data) eqn:E; [reflexivity|].
  now rewrite bytes_eqb_refl.
Qed.

(** What compress returns when the scan ends. *)
Lemma compress_of_scan r data toks :
  scan (length data) (sorted_patterns r) data 0 = Done toks ->
  exists m,
    compress r data = Done (flat_map emit toks, m)
    /\ integrity_hash m = sha256 data
    /\ original_size m = N.of_nat (length data)
    /\ compressed_size m = N.of_nat (length (flat_map emit toks))
    /\ layers_applied m = [L8_ULTRA_EXTREME_MAPPING].
Proof.
  intros Hs. unfold compress. rewrite compress_loop_scan, Hs. simpl app.
  eexists. split; [reflexivity|]. simpl. auto.
Qed.

(** The round trip succeeds whenever every decision of the scan can be read
    back. *)
Lemma roundtrip_of_scan r data toks :
  scan (length data) (sorted_patterns r) data 0 = Done toks ->
  Forall (decodable r) toks ->
  roundtrip r data = Done data.
Proof.
  intros Hs Hdec.
  destruct (compress_of_scan r data toks Hs) as [m [Hc [Hh _]]].
  unfold roundtrip. rewrite Hc. unfold decompress, reconstruct.
  rewrite (decompress_loop_tokens r toks _ [] []) by (auto; lia).
  simpl app. rewrite (scan_expand _ _ _ _ _ Hs). simpl skipn.
  now apply verify_integrity_own_digest.
Qed.

Lemma scan_decodable r data fuel i toks :
  registry_consistent r ->
  scan fuel (sorted_patterns r) data i = Done toks ->
  (forall b, In (Lit b) toks -> b <> ESCAPE_BYTE) ->
  Forall (decodable r) toks.
Proof.
  intros Hc Hs Hlit.
  pose proof (scan_tokens _ _ _ _ _ Hs) as Hfrom.
  rewrite Forall_forall in *. intros [b|p pid] Hin; simpl.
  - now apply Hlit.
  - apply Hc. apply sorted_patterns_In. apply (Hfrom _ Hin).
Qed.

(* ------------------------------------------------------------------ *)
(** ** Registries built by register calls satisfy the data-model invariant *)

Lemma in_combine_swap {A B} (l : list A) : forall (l' : list B) a b,
  In (a, b) (combine l l') -> In (b, a) (combine l' l).
Proof.
  induction l as [|x l IH]; intros [|y l'] a b; simpl; try tauto.
  intros [[= -> ->]|H]; auto.
Qed.

Lemma numbered_consistent qs : registry_consistent (numbered qs).
Proof.
  intros p pid Hin. unfold lookup.
  apply (In_dict_get _ N_eqb_eq).
  - rewrite numbered_id_keys. apply first_ids_NoDup.
  - simpl in *. now apply in_combine_swap.
Qed.

Lemma registry_of_consistent ps : registry_consistent (registry_of ps).
Proof. rewrite registry_of_numbered. apply numbered_consistent. Qed.

Lemma registry_of_patterns ps pattern pid :
  In (pattern, pid) (pattern_to_id (registry_of ps)) -> In pattern ps.
Proof.
  rewrite registry_of_numbered. simpl. intros H.
  apply in_combine_l in H.
  destruct (first_seen_spec ps [] (NoDup_nil _)) as [_ Hs].
  apply Hs in H. simpl in H. tauto.
Qed.

Lemma registry_of_keys_NoDup ps :
  NoDup (dict_keys (pattern_to_id (registry_of ps))).
Proof.
  rewrite registry_of_numbered, numbered_pattern_keys.
  apply (first_seen_spec ps [] (NoDup_nil _)).
Qed.

(* ------------------------------------------------------------------ *)
(** ** Round trip *)

(** C1 (the code at a failing input). A literal marker byte does not
    survive the round trip. With an empty registry the one-byte input
    [0xFE] is copied as it is, and decompress reads it as a pointer with no
    identifier after it. With the pattern AAAA registered under 0, the input
    [0xFE 0x00] is copied as it is, and decompress reads it as a pointer to
    pattern 0, rebuilds AAAA and stops at the digest check. *)
Theorem roundtrip_literal_marker_fails :
  roundtrip empty_registry [xfe] = Raise ValueError
  /\ roundtrip (registry_of [[x41; x41; x41; x41]]) [xfe; x00]
     = Raise IntegrityError
  /\ reconstruct (registry_of [[x41; x41; x41; x41]]) [xfe; x00]
     = Done [x41; x41; x41; x41].
Proof. repeat split; vm_compute; reflexivity. Qed.

(** C10 (as amended). For a registry that has no empty pattern and in
    which the identifier of every registered pattern looks up to that
    pattern (as in every registry built by register calls alone, lemma
    [registry_of_consistent]), an input without the byte [0xFE] comes back
    unchanged from compress followed by decompress. *)
Theorem roundtrip_without_marker r data :
  registry_consistent r ->
  patterns_nonempty r ->
  ~ In ESCAPE_BYTE data ->
  roundtrip r data = Done data.
Proof.
  intros Hc Hne Hm.
  destruct (scan_terminates (sorted_patterns r) data) with
    (fuel := length data) (i := 0%nat) as [toks Hs].
  - intros p pid Hin. apply (Hne p pid). now apply sorted_patterns_In.
  - lia.
  - apply (roundtrip_of_scan r data toks Hs).
    apply (scan_decodable r data _ _ _ Hc Hs).
    intros b Hb ->. apply Hm.
    pose proof (scan_tokens _ _ _ _ _ Hs) as Hfrom.
    rewrite Forall_forall in Hfrom. specialize (Hfrom _ Hb).
    destruct Hfrom as [i [Hi [-> _]]]. now apply byte_at_In.
Qed.

Lemma example_registry_nonempty : patterns_nonempty example_registry.
Proof.
  intros p pid H. apply registry_of_patterns in H.
  destruct H as [<-|[]]. discriminate.
Qed.

Lemma roundtrip_without_marker_witness :
  registry_consistent example_registry
  /\ patterns_nonempty example_registry
  /\ ~ In ESCAPE_BYTE example_input
  /\ roundtrip example_registry example_input = Done example_input.
Proof.
  assert (Hc : registry_consistent example_registry)
    by apply registry_of_consistent.
  assert (Hm : ~ In ESCAPE_BYTE example_input)
    by (simpl; intuition discriminate).
  split; [exact Hc|]. split; [exact example_registry_nonempty|].
  split; [exact Hm|].
  exact (roundtrip_without_marker example_registry example_input
           Hc example_registry_nonempty Hm).
Defined.

(* ------------------------------------------------------------------ *)
(** ** Bytes that match no pattern *)

Lemma scan_all_literal sorted data :
  (forall i, (i < length data)%nat -> find_match sorted data i = None) ->
  forall fuel i, (length data - i <= fuel)%nat ->
  scan fuel sorted data i = Done (map Lit (skipn i data)).
Proof.
  intros Hnone. induction fuel as [|fuel IH]; intros i Hf; simpl.
  - destruct (i <? length data)%nat eqn:E.
    + apply Nat.ltb_lt in E. lia.
    + apply Nat.ltb_ge in E. now rewrite skipn_all2.
  - destruct (i <? length data)%nat eqn:E.
    + apply Nat.ltb_lt in E. rewrite (Hnone i E), IH by lia.
      now rewrite (skipn_byte_at data i E).
    + apply Nat.ltb_ge in E. now rewrite skipn_all2.
Qed.

Lemma flat_map_emit_Lit l : flat_map emit (map Lit l) = l.
Proof. induction l; simpl; congruence. Qed.

(** C2 (the code at a failing input). With an empty registry the one-byte
    input [0xFE] matches no pattern and equals the marker byte. Compress
    emits that one byte as it is, not an escape marker followed by the
    byte, and the input does not come back from the round trip. *)
Lemma literal_marker_not_escaped :
  (exists m, compress empty_registry [xfe] = Done ([xfe], m))
  /\ roundtrip empty_registry [xfe] <> Done [xfe].
Proof.
  split.
  - eexists. vm_compute. reflexivity.
  - vm_compute. discriminate.
Qed.

(* ------------------------------------------------------------------ *)
(** ** Termination and size of compress *)

(** A scan that stalls on the empty pattern never ends. *)
Lemma scan_stalls sorted data i pid :
  (i < length data)%nat ->
  find_match sorted data i = Some ([], pid) ->
  forall fuel, scan fuel sorted data i = Diverge.
Proof.
  intros Hi Hm. apply Nat.ltb_lt in Hi.
  induction fuel as [|fuel IH]; simpl; rewrite Hi; [reflexivity|].
  rewrite Hm. simpl. now rewrite Nat.add_0_r, IH.
Qed.

(** [Diverge] is faithful: a scan that has not ended within
    [len(data) - i] iterations does not end with any number of them. *)
Lemma scan_diverges sorted data : forall fuel i,
  (length data - i <= fuel)%nat ->
  scan fuel sorted data i = Diverge ->
  forall fuel', scan fuel' sorted data i = Diverge.
Proof.
  induction fuel as [|fuel IH]; intros i Hf; simpl.
  - destruct (i <? length data)%nat eqn:E; [|discriminate].
    apply Nat.ltb_lt in E. lia.
  - destruct (i <? length data)%nat eqn:E; [|discriminate].
    destruct (find_match sorted data i) as [[p pid]|] eqn:F.
    + destruct p as [|b p].
      * intros _. apply Nat.ltb_lt in E. now apply (scan_stalls _ _ _ pid).
      * destruct (scan fuel sorted data (i + length (b :: p))) eqn:S;
          try discriminate.
        assert (Hall := IH (i + length (b :: p))%nat).
        apply Nat.ltb_lt in E.
        specialize (Hall ltac:(simpl; lia) S).
        apply Nat.ltb_lt in E.
        intros _ [|fuel']; simpl; rewrite E; [reflexivity|].
        rewrite F. simpl in Hall. now rewrite Hall.
    + destruct (scan fuel sorted data (i + 1)) eqn:S; try discriminate.
      assert (Hall := IH (i + 1)%nat).
      apply Nat.ltb_lt in E.
      specialize (Hall ltac:(lia) S).
      apply Nat.ltb_lt in E.
      intros _ [|fuel']; simpl; rewrite E; [reflexivity|].
      rewrite F. now rewrite Hall.
Qed.

(** The loop of compress, when it is reported to diverge, diverges with
    every number of iterations. *)
Lemma compress_loop_diverges r data :
  compress r data = Diverge ->
  forall fuel, compress_loop fuel (sorted_patterns r) data 0 [] = Diverge.
Proof.
  unfold compress. rewrite compress_loop_scan.
  destruct (scan (length data) (sorted_patterns r) data 0) eqn:S;
    try discriminate.
  intros _ fuel. rewrite compress_loop_scan.
  assert (Hf : (length data - 0 <= length data)%nat) by lia.
  now rewrite (scan_diverges _ _ _ _ Hf S).
Qed.

Lemma emit_le_expand sorted data toks :
  (forall pattern pid, In (pattern, pid) sorted ->
     (length (ESCAPE_BYTE :: varint_encode pid) <= length pattern)%nat) ->
  Forall (token_from sorted data) toks ->
  (length (flat_map emit toks) <= length (flat_map expand toks))%nat.
Proof.
  intros Hlong. induction 1 as [|t toks Ht _ IH]; simpl; [lia|].
  rewrite !length_app.
  destruct t as [b|p pid]; simpl in *; [lia|].
  specialize (Hlong p pid Ht). simpl in Hlong. lia.
Qed.

(** C3 (counterexample). With the one-byte pattern A registered under 0,
    the one-byte input A is compressed to the two bytes [0xFE 0x00]: longer
    than the input, although the input holds no marker byte. *)
Lemma short_pattern_expands :
  exists m,
    compress (registry_of [[x41]]) [x41] = Done ([xfe; x00], m)
    /\ (length [x41] + count_occ Byte.byte_eq_dec [x41] ESCAPE_BYTE
        < length [xfe; x00])%nat.
Proof.
  eexists. split; [vm_compute; reflexivity | simpl; lia].
Qed.

(** C3 (as amended). When no registered pattern is empty, compress returns
    for every input. When moreover no registered pattern is shorter than
    the pointer that replaces it (the marker and the encoded identifier),
    the output is not longer than the input. *)
Theorem compress_terminates_bounded r data :
  patterns_nonempty r ->
  exists out m,
    compress r data = Done (out, m)
    /\ ((forall pattern pid, In (pattern, pid) (pattern_to_id r) ->
           (length (ESCAPE_BYTE :: varint_encode pid) <= length pattern)%nat)
        -> (length out <= length data)%nat).
Proof.
  intros Hne.
  destruct (scan_terminates (sorted_patterns r) data) with
    (fuel := length data) (i := 0%nat) as [toks Hs].
  - intros p pid Hin. apply (Hne p pid). now apply sorted_patterns_In.
  - lia.
  - destruct (compress_of_scan r data toks Hs) as [m [Hc _]].
    exists (flat_map emit toks), m. split; [exact Hc|].
    intros Hlong.
    replace (length data) with (length (flat_map expand toks))
      by (now rewrite (scan_expand _ _ _ _ _ Hs)).
    apply (emit_le_expand (sorted_patterns r) data).
    + intros p pid Hin. apply Hlong. now apply sorted_patterns_In.
    + apply (scan_tokens _ _ _ _ _ Hs).
Qed.

Lemma compress_terminates_bounded_witness :
  patterns_nonempty example_registry
  /\ exists out m,
       compress example_registry example_input = Done (out, m)
       /\ ((forall pattern pid,
              In (pattern, pid) (pattern_to_id example_registry) ->
              (length (ESCAPE_BYTE :: varint_encode pid) <= length pattern)%nat)
           -> (length out <= length example_input)%nat).
Proof.
  split; [exact example_registry_nonempty|].
  exact (compress_terminates_bounded example_registry example_input
           example_registry_nonempty).
Defined.

(* ------------------------------------------------------------------ *)
(** ** Determinism and the order of matching *)

Lemma keys_functional (l : list (bytes * N)) p a b :
  NoDup (dict_keys l) -> In (p, a) l -> In (p, b) l -> a = b.
Proof.
  intros Hnd Ha Hb.
  apply (In_dict_get _ bytes_eqb_eq _ _ _ Hnd) in Ha.
  apply (In_dict_get _ bytes_eqb_eq _ _ _ Hnd) in Hb.
  congruence.
Qed.

(** Two longest-first lists with the same items, no pattern twice, make the
    same choice at every position. *)
Lemma find_match_agree s1 s2 data i :
  longest_first s1 -> longest_first s2 ->
  (forall kv, In kv s1 <-> In kv s2) ->
  (forall p a b, In (p, a) s1 -> In (p, b) s1 -> a = b) ->
  find_match s1 data i = find_match s2 data i.
Proof.
  intros L1 L2 Hsame Hfun.
  destruct (find_match s1 data i) as [[p pid]|] eqn:F1.
  - destruct (find_match_Some _ _ _ _ _ F1) as [Hin1 Hp].
    destruct (find_match s2 data i) as [[q qid]|] eqn:F2.
    + destruct (find_match_Some _ _ _ _ _ F2) as [Hin2 Hq].
      assert (Hle1 := find_match_longest _ _ _ _ _ L1 F1 q qid
                        (proj2 (Hsame _) Hin2) Hq).
      assert (Hle2 := find_match_longest _ _ _ _ _ L2 F2 p pid
                        (proj1 (Hsame _) Hin1) Hp).
      assert (p = q).
      { apply (is_prefix_same_length p q (skipn i data)); auto. lia. }
      subst q. f_equal. f_equal.
      apply (Hfun p); [assumption | now apply Hsame].
    + rewrite find_match_None in F2.
      rewrite (F2 p pid) in Hp; [discriminate | now apply Hsame].
  - symmetry. rewrite find_match_None in *.
    intros p pid Hin. apply (F1 p pid). now apply Hsame.
Qed.

Lemma compress_loop_ext s1 s2 data :
  (forall i, find_match s1 data i = find_match s2 data i) ->
  forall fuel i output,
    compress_loop fuel s1 data i output = compress_loop fuel s2 data i output.
Proof.
  intros Hext. induction fuel as [|fuel IH]; intros i output; simpl.
  - reflexivity.
  - rewrite Hext. destruct (i <? length data)%nat; [|reflexivity].
    destruct (find_match s2 data i) as [[p pid]|]; apply IH.
Qed.

(** The scan takes a registered pattern whenever one occurs: the choice
    is a registered pattern that occurs at the position, no occurring
    registered pattern is longer, and none of the same length has a
    smaller identifier. *)
Lemma find_match_chooses r data i q qid :
  NoDup (dict_keys (pattern_to_id r)) ->
  In (q, qid) (pattern_to_id r) ->
  startswith data q i = true ->
  exists pattern pid,
    find_match (sorted_patterns r) data i = Some (pattern, pid)
    /\ In (pattern, pid) (pattern_to_id r)
    /\ startswith data pattern i = true
    /\ (length q <= length pattern)%nat
    /\ (length q = length pattern -> pid <= qid).
Proof.
  intros Hnd Hin Hq.
  destruct (find_match (sorted_patterns r) data i) as [[p pid]|] eqn:F.
  - destruct (find_match_Some _ _ _ _ _ F) as [Hin' Hp].
    apply sorted_patterns_In in Hin'.
    exists p, pid. split; [reflexivity|]. split; [exact Hin'|].
    split; [exact Hp|].
    assert (Hle : (length q <= length p)%nat).
    { apply (find_match_longest _ _ _ _ _ (sort_by_length_sorted _) F q qid);
        [now apply sorted_patterns_In | assumption]. }
    split; [exact Hle|]. intros Hlen.
    assert (q = p)
      by (apply (is_prefix_same_length q p (skipn i data)); auto).
    subst q. rewrite (keys_functional _ _ _ _ Hnd Hin Hin'). lia.
  - rewrite find_match_None in F.
    rewrite (F q qid) in Hq; [discriminate|]. now apply sorted_patterns_In.
Qed.

(** The longest registered pattern that occurs at a position is the one
    the scan finds there. *)
Lemma find_match_longest_occurring r data i pattern pid :
  NoDup (dict_keys (pattern_to_id r)) ->
  In (pattern, pid) (pattern_to_id r) ->
  startswith data pattern i = true ->
  (forall q qid, In (q, qid) (pattern_to_id r) ->
     startswith data q i = true -> (length q <= length pattern)%nat) ->
  find_match (sorted_patterns r) data i = Some (pattern, pid).
Proof.
  intros Hnd Hin Hp Hmax.
  destruct (find_match_chooses r data i pattern pid Hnd Hin Hp)
    as [p [id [F [Hin' [Hp' [Hle _]]]]]].
  specialize (Hmax p id Hin' Hp').
  assert (p = pattern)
    by (apply (is_prefix_same_length p pattern (skipn i data)); auto; lia).
  subst p. rewrite F. f_equal. f_equal.
  exact (keys_functional _ _ _ _ Hnd Hin' Hin).
Qed.

(** C5. Compress is a function of the registered entries and the input:
    two registries with the same entries, whatever the order in which
    their dicts hold them, give the same result on the same input, output
    bytes and metadata alike. Whenever a registered pattern occurs at the
    scan position one is taken: the pattern taken is registered and occurs
    there, no registered pattern that occurs there is longer, and among
    those of its length it has the least identifier (two such patterns
    are in fact the same entry). The loop then appends the marker and the
    encoded identifier of that longest occurring pattern and advances by
    its length, so that the output of compress on an input starting with
    it begins with that pointer; where no registered pattern occurs the
    loop copies the byte and advances by one. *)
Theorem compress_deterministic_longest_first r :
  NoDup (dict_keys (pattern_to_id r)) ->
  (forall r' data,
      Permutation (pattern_to_id r) (pattern_to_id r') ->
      compress r' data = compress r data)
  /\ (forall data i pattern pid,
        find_match (sorted_patterns r) data i = Some (pattern, pid) ->
        forall q qid,
          In (q, qid) (pattern_to_id r) ->
          startswith data q i = true ->
          (length q <= length pattern)%nat
          /\ (length q = length pattern -> pid <= qid))
  /\ (forall data i q qid,
        In (q, qid) (pattern_to_id r) ->
        startswith data q i = true ->
        exists pattern pid,
          find_match (sorted_patterns r) data i = Some (pattern, pid)
          /\ In (pattern, pid) (pattern_to_id r)
          /\ startswith data pattern i = true
          /\ (length q <= length pattern)%nat
          /\ (length q = length pattern -> pid <= qid))
  /\ (forall fuel data i output pattern pid,
        (i < length data)%nat ->
        In (pattern, pid) (pattern_to_id r) ->
        startswith data pattern i = true ->
        (forall q qid, In (q, qid) (pattern_to_id r) ->
           startswith data q i = true ->
           (length q <= length pattern)%nat) ->
        compress_loop (S fuel) (sorted_patterns r) data i output
        = compress_loop fuel (sorted_patterns r) data (i + length pattern)
            (output ++ ESCAPE_BYTE :: varint_encode pid))
  /\ (forall fuel data i output,
        (i < length data)%nat ->
        (forall q qid, In (q, qid) (pattern_to_id r) ->
           startswith data q i = false) ->
        compress_loop (S fuel) (sorted_patterns r) data i output
        = compress_loop fuel (sorted_patterns r) data (i + 1)
            (output ++ [byte_at data i]))
  /\ (forall data pattern pid out m,
        data <> [] ->
        In (pattern, pid) (pattern_to_id r) ->
        startswith data pattern 0 = true ->
        (forall q qid, In (q, qid) (pattern_to_id r) ->
           startswith data q 0 = true ->
           (length q <= length pattern)%nat) ->
        compress r data = Done (out, m) ->
        exists tail, out = ESCAPE_BYTE :: varint_encode pid ++ tail).
Proof.
  intros Hnd. split; [|split; [|split; [|split; [|split]]]].
  - intros r' data Hperm. unfold compress.
    rewrite (compress_loop_ext (sorted_patterns r') (sorted_patterns r));
      [reflexivity|].
    intros i. symmetry. apply find_match_agree.
    + apply sort_by_length_sorted.
    + apply sort_by_length_sorted.
    + intros kv. rewrite !sorted_patterns_In.
      split; apply Permutation_in; [| symmetry]; exact Hperm.
    + intros p a b Ha Hb. apply sorted_patterns_In in Ha, Hb.
      apply (keys_functional _ p a b Hnd Ha Hb).
  - intros data i pattern pid F q qid Hin Hq.
    destruct (find_match_chooses r data i q qid Hnd Hin Hq)
      as [p [id [F' [_ [_ [Hle Htie]]]]]].
    rewrite F in F'. injection F' as <- <-. auto.
  - intros data i q qid Hin Hq.
    exact (find_match_chooses r data i q qid Hnd Hin Hq).
  - intros fuel data i output pattern pid Hi Hin Hp Hmax.
    cbn [compress_loop]. apply Nat.ltb_lt in Hi. rewrite Hi.
    now rewrite (find_match_longest_occurring r data i pattern pid
                   Hnd Hin Hp Hmax).
  - intros fuel data i output Hi Hnone.
    cbn [compress_loop]. apply Nat.ltb_lt in Hi. rewrite Hi.
    replace (find_match (sorted_patterns r) data i) with
      (@None (bytes * N)); [reflexivity|].
    symmetry. apply find_match_None. intros p pid Hin.
    apply (Hnone p pid). now apply sorted_patterns_In.
  - intros data pattern pid out m Hne Hin Hp Hmax.
    unfold compress. rewrite compress_loop_scan.
    destruct data as [|b data]; [congruence|].
    cbn [length scan]. cbn [Nat.ltb Nat.leb].
    rewrite (find_match_longest_occurring r (b :: data) 0 pattern pid
               Hnd Hin Hp Hmax).
    destruct (scan (length data) (sorted_patterns r) (b :: data)
                (0 + length pattern)) as [toks| |]; try discriminate.
    intros [= <- _]. cbn [flat_map emit app].
    eexists. reflexivity.
Qed.

Lemma compress_deterministic_longest_first_witness :
  NoDup (dict_keys (pattern_to_id tie_registry))
  /\ In ([x41], 1) (pattern_to_id tie_registry)
  /\ startswith [x41; x41; x42; x42] [x41] 0 = true
  /\ exists pattern pid,
       find_match (sorted_patterns tie_registry) [x41; x41; x42; x42] 0
       = Some (pattern, pid)
       /\ In (pattern, pid) (pattern_to_id tie_registry)
       /\ startswith [x41; x41; x42; x42] pattern 0 = true
       /\ (length [x41] <= length pattern)%nat
       /\ (length [x41] = length pattern -> pid <= 1).
Proof.
  assert (H : NoDup (dict_keys (pattern_to_id tie_registry)))
    by apply registry_of_keys_NoDup.
  assert (H1 : In ([x41], 1) (pattern_to_id tie_registry))
    by (simpl; auto).
  assert (H2 : startswith [x41; x41; x42; x42] [x41] 0 = true)
    by reflexivity.
  split; [exact H|]. split; [exact H1|]. split; [exact H2|].
  exact (proj1 (proj2 (proj2 (compress_deterministic_longest_first
                                tie_registry H)))
           [x41; x41; x42; x42] 0%nat [x41] 1 H1 H2).
Defined.

(** With the patterns AA, A and BB registered under 0, 1 and 2, the input
    AABBA is compressed to the pointers 0, 2 and 1: the longer AA is taken
    where both AA and A occur. *)
Example compress_tie_registry :
  exists m,
    compress tie_registry [x41; x41; x42; x42; x41]
    = Done ([xfe; x00; xfe; x02; xfe; x01], m).
Proof. eexists. vm_compute. reflexivity. Qed.

(* ------------------------------------------------------------------ *)
(** ** The integrity check of decompress *)

(** The decompress loop always ends within [len(data) - i] iterations. *)
Lemma decompress_loop_terminates r data : forall fuel i output,
  (length data - i <= fuel)%nat ->
  decompress_loop fuel r data i output <> Diverge.
Proof.
  induction fuel as [|fuel IH]; intros i output Hf; simpl.
  - destruct (i <? length data)%nat eqn:E; [|discriminate].
    apply Nat.ltb_lt in E. lia.
  - destruct (i <? length data)%nat eqn:E; [|discriminate].
    apply Nat.ltb_lt in E.
    destruct (Byte.eqb (byte_at data i) ESCAPE_BYTE).
    + destruct (varint_decode data (i + 1)) as [[pid consumed]|];
        [|discriminate].
      destruct (lookup r pid); [|discriminate].
      apply IH. lia.
    + apply IH. lia.
Qed.

Lemma reconstruct_terminates r data : reconstruct r data <> Diverge.
Proof. apply decompress_loop_terminates. lia. Qed.

(** C4. When the metadata carries a digest, decompress always ends, and it
    returns a result only if the digest of the rebuilt bytes equals the
    recorded one: a result it returns is the rebuilt byte string and has
    the recorded digest, and rebuilt bytes with another digest make it
    raise the integrity error. *)
Theorem decompress_checks_integrity r data metadata :
  integrity_hash metadata <> [] ->
  decompress r data metadata <> Diverge
  /\ (forall result,
        decompress r data metadata = Done result ->
        reconstruct r data = Done result
        /\ sha256 result = integrity_hash metadata)
  /\ (forall result,
        reconstruct r data = Done result ->
        sha256 result <> integrity_hash metadata ->
        decompress r data metadata = Raise IntegrityError).
Proof.
  intros Hh. unfold decompress.
  pose proof (reconstruct_terminates r data) as Ht.
  destruct (reconstruct r data) as [rebuilt| e |]; [| |congruence].
  - unfold verify_integrity.
    destruct (integrity_hash metadata) as [|h0 hs] eqn:Eh; [congruence|].
    destruct (bytes_eqb (sha256 rebuilt) (h0 :: hs)) eqn:E.
    + apply bytes_eqb_eq in E.
      split; [discriminate|]. split.
      * intros result [= <-]. split; [reflexivity | exact E].
      * intros result [= <-] Hne. contradiction.
    + apply bytes_eqb_neq in E.
      split; [discriminate|]. split.
      * discriminate.
      * intros result [= <-] _. reflexivity.
  - split; [discriminate|]. split; discriminate.
Qed.

Lemma decompress_checks_integrity_witness :
  integrity_hash foreign_metadata <> []
  /\ decompress example_registry [xfe; x00] foreign_metadata
     = Raise IntegrityError.
Proof.
  assert (Hh : integrity_hash foreign_metadata <> [])
    by (vm_compute; discriminate).
  split; [exact Hh|].
  apply (proj2 (proj2 (decompress_checks_integrity example_registry
                         [xfe; x00] foreign_metadata Hh))
           [x41; x41; x41; x41]).
  - vm_compute. reflexivity.
  - vm_compute. discriminate.
Defined.

(* ------------------------------------------------------------------ *)
(** ** The pipeline composer *)

(** C9. When the codec returns [(l8_out, l8_meta)] and the inner pipeline
    maps [l8_out] to [(final_out, final_meta)], compress_block returns
    metadata whose original size is the length of the input and whose
    digest is the digest of the input. If the pipeline left the bytes
    unchanged the result is [l8_out] with the other fields of [l8_meta];
    otherwise it is [final_out] with the other fields of [final_meta],
    this layer put in front of its applied layers. *)
Theorem compress_block_reconciles inner r data l8_out l8_meta
  final_out final_meta :
  compress r data = Done (l8_out, l8_meta) ->
  inner l8_out = (final_out, final_meta) ->
  exists out m,
    compress_block inner r data = Done (out, m)
    /\ original_size m = N.of_nat (length data)
    /\ integrity_hash m = sha256 data
    /\ (final_out = l8_out ->
        out = l8_out
        /\ layers_applied m = layers_applied l8_meta
        /\ block_id m = block_id l8_meta
        /\ compressed_size m = compressed_size l8_meta
        /\ compression_ratio m = compression_ratio l8_meta)
    /\ (final_out <> l8_out ->
        out = final_out
        /\ layers_applied m
           = L8_ULTRA_EXTREME_MAPPING :: layers_applied final_meta
        /\ block_id m = block_id final_meta
        /\ compressed_size m = compressed_size final_meta
        /\ compression_ratio m = compression_ratio final_meta).
Proof.
  intros Hc Hi. unfold compress_block. rewrite Hc, Hi.
  destruct (bytes_eqb final_out l8_out) eqn:E.
  - apply bytes_eqb_eq in E. eexists _, _. split; [reflexivity|].
    simpl. repeat split; auto; contradiction.
  - apply bytes_eqb_neq in E. eexists _, _. split; [reflexivity|].
    simpl. repeat split; auto; contradiction.
Qed.

Lemma compress_block_reconciles_witness :
  exists out m,
    compress_block appending_pipeline example_registry example_input
    = Done (out, m)
    /\ original_size m = N.of_nat (length example_input)
    /\ integrity_hash m = sha256 example_input
    /\ (example_l8_out ++ [x00] = example_l8_out ->
        out = example_l8_out
        /\ layers_applied m = layers_applied example_l8_meta
        /\ block_id m = block_id example_l8_meta
        /\ compressed_size m = compressed_size example_l8_meta
        /\ compression_ratio m = compression_ratio example_l8_meta)
    /\ (example_l8_out ++ [x00] <> example_l8_out ->
        out = example_l8_out ++ [x00]
        /\ layers_applied m
           = L8_ULTRA_EXTREME_MAPPING
             :: layers_applied (snd (appending_pipeline example_l8_out))
        /\ block_id m = block_id (snd (appending_pipeline example_l8_out))
        /\ compressed_size m
           = compressed_size (snd (appending_pipeline example_l8_out))
        /\ compression_ratio m
           = compression_ratio (snd (appending_pipeline example_l8_out))).
Proof.
  apply (compress_block_reconciles appending_pipeline example_registry
           example_input example_l8_out example_l8_meta).
  - vm_compute. reflexivity.
  - reflexivity.
Defined.

(* ------------------------------------------------------------------ *)
(** ** The registry snapshot *)

Lemma be32_recompose n :
  n < 2 ^ 32 ->
  (n / 2 ^ 24) mod 256 * 2 ^ 24 + (n / 2 ^ 16) mod 256 * 2 ^ 16
  + (n / 2 ^ 8) mod 256 * 2 ^ 8 + n mod 256 = n.
Proof.
  intros E.
  replace (n / 2 ^ 24) with (n / 256 / 256 / 256)
    by (rewrite !N.Div0.div_div; reflexivity).
  replace (n / 2 ^ 16) with (n / 256 / 256)
    by (rewrite !N.Div0.div_div; reflexivity).
  change (2 ^ 8) with 256. change (2 ^ 16) with 65536.
  change (2 ^ 24) with 16777216. change (2 ^ 32) with 4294967296 in E.
  set (a1 := n / 256). set (a2 := a1 / 256). set (a3 := a2 / 256).
  pose proof (N.div_mod n 256 ltac:(discriminate)) as H0.
  pose proof (N.div_mod a1 256 ltac:(discriminate)) as H1.
  pose proof (N.div_mod a2 256 ltac:(discriminate)) as H2.
  pose proof (N.mod_upper_bound n 256 ltac:(discriminate)) as B0.
  pose proof (N.mod_upper_bound a1 256 ltac:(discriminate)) as B1.
  pose proof (N.mod_upper_bound a2 256 ltac:(discriminate)) as B2.
  fold a1 in H0. fold a2 in H1. fold a3 in H2.
  assert (B3 : a3 < 256).
  { generalize dependent (n mod 256). generalize dependent (a1 mod 256).
    generalize dependent (a2 mod 256). intros. lia. }
  rewrite (N.mod_small a3 256 B3).
  generalize dependent (n mod 256). generalize dependent (a1 mod 256).
  generalize dependent (a2 mod 256). intros. lia.
Qed.

Lemma unpack_pack_u32 n b :
  pack_u32 n = Some b -> unpack_u32 b = Some n /\ length b = 4%nat.
Proof.
  unfold pack_u32. destruct (n <? 2 ^ 32) eqn:E; [|discriminate].
  intros [= <-]. split; [|reflexivity].
  apply N.ltb_lt in E. unfold unpack_u32. rewrite !to_N_byte_of_N. f_equal.
  exact (be32_recompose n E).
Qed.

Lemma firstn_length_app {A} (pre rest : list A) :
  firstn (length pre) (pre ++ rest) = pre.
Proof. induction pre; simpl; congruence. Qed.

Lemma firstn_4_app (b rest : bytes) :
  length b = 4%nat -> firstn 4 (b ++ rest) = b.
Proof. intros <-. apply firstn_length_app. Qed.

Lemma skipn_4_app (b rest : bytes) :
  length b = 4%nat -> skipn 4 (b ++ rest) = rest.
Proof. intros <-. apply skipn_length_app. Qed.

(** Reading back the records that serialize wrote stores each of them. *)
Lemma deserialize_loop_serialized items : forall r recs,
  serialize_records items = Done recs ->
  deserialize_loop (length items) r recs = (store_all r items, Done tt).
Proof.
  induction items as [|[pid pat] items IH]; intros r recs;
    cbn [serialize_records length deserialize_loop].
  - intros _. reflexivity.
  - destruct (pack_u32 pid) as [bpid|] eqn:Ep; [|discriminate].
    destruct (pack_u32 (N.of_nat (length pat))) as [blen|] eqn:El;
      [|discriminate].
    destruct (serialize_records items) as [rest| |] eqn:Er;
      try discriminate.
    intros [= <-].
    destruct (unpack_pack_u32 _ _ Ep) as [Up Lp].
    destruct (unpack_pack_u32 _ _ El) as [Ul Ll].
    rewrite (firstn_4_app _ _ Lp), Up, (skipn_4_app _ _ Lp).
    rewrite (firstn_4_app _ _ Ll), Ul, (skipn_4_app _ _ Ll).
    rewrite Nat2N.id, firstn_length_app, skipn_length_app.
    now apply IH.
Qed.

Lemma store_record_numbered qs p :
  ~ In p qs ->
  store_record (numbered qs) (N.of_nat (length qs)) p = numbered (qs ++ [p]).
Proof.
  intros Hnew.
  assert (Hp : dict_get bytes_eqb (pattern_to_id (numbered qs)) p = None).
  { apply (dict_get_None_notin _ bytes_eqb_eq).
    now rewrite numbered_pattern_keys. }
  assert (Hi : dict_get N.eqb (id_to_pattern (numbered qs))
                 (N.of_nat (length qs)) = None).
  { apply (dict_get_None_notin _ N_eqb_eq).
    rewrite numbered_id_keys, first_ids_In. lia. }
  unfold store_record.
  rewrite (dict_set_absent _ _ _ _ Hp), (dict_set_absent _ _ _ _ Hi).
  rewrite numbered_snoc. f_equal. simpl. lia.
Qed.

Lemma store_all_numbered post : forall pre,
  NoDup (pre ++ post) ->
  store_all (numbered pre) (items_from (length pre) post)
  = numbered (pre ++ post).
Proof.
  induction post as [|p post IH]; intros pre Hnd.
  - simpl. now rewrite app_nil_r.
  - unfold items_from, store_all. simpl.
    assert (Hp : ~ In p pre).
    { apply NoDup_remove_2 in Hnd. rewrite in_app_iff in Hnd. tauto. }
    rewrite store_record_numbered by assumption.
    replace (pre ++ p :: post) with ((pre ++ [p]) ++ post)
      by (now rewrite <- app_assoc).
    rewrite <- IH by (rewrite <- app_assoc; exact Hnd).
    unfold store_all, items_from. rewrite length_app. simpl.
    now rewrite Nat.add_1_r.
Qed.

Lemma deserialize_serialize_numbered qs data :
  NoDup qs ->
  serialize (numbered qs) = Done data ->
  deserialize empty_registry data = (numbered qs, Done tt).
Proof.
  intros Hnd. unfold serialize.
  destruct (pack_u32 (N.of_nat (length (id_to_pattern (numbered qs)))))
    as [bcount|] eqn:Ec; [|discriminate].
  destruct (serialize_records (id_to_pattern (numbered qs))) as [recs| |]
    eqn:Er; try discriminate.
  intros [= <-].
  destruct (unpack_pack_u32 _ _ Ec) as [Uc Lc].
  unfold deserialize.
  rewrite (firstn_4_app _ _ Lc), (skipn_4_app _ _ Lc).
  destruct bcount as [|b0 bcount]; [discriminate|].
  rewrite Uc, Nat2N.id.
  rewrite (deserialize_loop_serialized _ _ _ Er).
  f_equal.
  change empty_registry with (numbered []).
  change (id_to_pattern (numbered qs)) with (items_from (length (@nil bytes)) qs).
  now rewrite store_all_numbered.
Qed.

(** C7. For a registry built by register calls whose snapshot serialize
    returns, deserialize of that snapshot into a fresh registry succeeds
    and restores the registry: the same entries pattern to identifier and
    identifier to pattern, and the same counter. Every identifier of the
    restored registry is below its counter, so the identifier given to a
    pattern registered afterwards that is not yet known differs from all
    of them. *)
Theorem deserialize_serialize_restores ps data :
  serialize (registry_of ps) = Done data ->
  deserialize empty_registry data = (registry_of ps, Done tt)
  /\ (forall p pid,
        In (p, pid) (pattern_to_id (fst (deserialize empty_registry data)))
        <-> In (pid, p)
              (id_to_pattern (fst (deserialize empty_registry data))))
  /\ (forall p pid,
        In (p, pid) (pattern_to_id (fst (deserialize empty_registry data)))
        -> pid < next_id (fst (deserialize empty_registry data)))
  /\ (forall p,
        ~ In p (dict_keys
                  (pattern_to_id (fst (deserialize empty_registry data)))) ->
        forall q qid,
          In (q, qid)
             (pattern_to_id (fst (deserialize empty_registry data))) ->
          fst (register (fst (deserialize empty_registry data)) p) <> qid).
Proof.
  rewrite registry_of_numbered. intros Hs.
  destruct (first_seen_spec ps [] (NoDup_nil _)) as [Hnd _].
  rewrite (deserialize_serialize_numbered _ _ Hnd Hs). cbn [fst].
  split; [reflexivity|]. split; [|split].
  - intros p pid. simpl. split; apply in_combine_swap.
  - intros p pid Hin. apply numbered_ids_below in Hin. exact Hin.
  - intros p Hnew q qid Hin. rewrite numbered_pattern_keys in Hnew.
    rewrite register_numbered_new by assumption. cbn [fst].
    apply numbered_ids_below in Hin. lia.
Qed.

Lemma deserialize_serialize_restores_witness :
  serialize example_registry = Done example_snapshot
  /\ deserialize empty_registry example_snapshot
     = (example_registry, Done tt).
Proof.
  assert (H : serialize example_registry = Done example_snapshot)
    by (vm_compute; reflexivity).
  split; [exact H|].
  exact (proj1 (deserialize_serialize_restores [[x41; x41; x41; x41]]
                  example_snapshot H)).
Defined.

(** C8 (the code at a failing input). A snapshot that announces one record
    with identifier 0 and a pattern of five bytes, and ends after two of
    them, is accepted: deserialize returns without raising and stores the
    two bytes as pattern 0. *)
Theorem deserialize_stores_truncated_pattern :
  deserialize empty_registry
    [x00; x00; x00; x01;
     x00; x00; x00; x00;
     x00; x00; x00; x05;
     x41; x42]
  = ({| pattern_to_id := [([x41; x42], 0)];
        id_to_pattern := [(0, [x41; x42])];
        next_id := 1 |},
     Done tt).
Proof. vm_compute. reflexivity. Qed.

(** A stream that ends inside a fixed-size field does raise: one to three
    bytes where the count is read, or fewer than four bytes where an
    identifier is read. *)
Lemma deserialize_truncated_field r b0 rest :
  (length rest < 3)%nat ->
  snd (deserialize r (b0 :: rest)) = Raise StructError.
Proof.
  intros H. destruct rest as [|b1 [|b2 [|b3 rest]]]; simpl in *;
    try reflexivity; lia.
Qed.

(** The invariant [registry_consistent] is kept by register but not by
    deserialize: merging a snapshot that uses identifier 0 for another
    pattern leaves the old pattern pointing at an identifier that now
    resolves to the new one. *)
Lemma deserialize_merge_breaks_consistency :
  ~ registry_consistent
      (fst (deserialize example_registry
              [x00; x00; x00; x01;
               x00; x00; x00; x00;
               x00; x00; x00; x01;
               x42])).
Proof.
  intros H. specialize (H [x41; x41; x41; x41] 0).
  vm_compute in H. specialize (H (or_introl eq_refl)). discriminate.
Qed.

(* ================================================================== *)
(** * Further properties of the registry *)

Lemma in_dict_set {K V} (eqb : K -> K -> bool)
  (eqb_eq : forall x y, eqb x y = true <-> x = y)
  (d : list (K * V)) k0 v0 k v :
  In (k, v) (dict_set eqb d k0 v0) -> (k, v) = (k0, v0) \/ In (k, v) d.
Proof.
  induction d as [|[k' v'] d IH]; simpl.
  - intros [H|[]]. left. now symmetry.
  - destruct (eqb k' k0) eqn:E; simpl.
    + apply eqb_eq in E. subst k'. intros [H|H]; [left; now symmetry | auto].
    + intros [H|H]; [auto|]. destruct (IH H); auto.
Qed.

Lemma dict_set_keys_NoDup {K V} (eqb : K -> K -> bool)
  (eqb_eq : forall x y, eqb x y = true <-> x = y)
  (d : list (K * V)) k v :
  NoDup (dict_keys d) -> NoDup (dict_keys (dict_set eqb d k v)).
Proof.
  intros Hnd. rewrite dict_keys_set.
  destruct (dict_get eqb d k) eqn:E; [assumption|].
  apply (dict_get_None_notin _ eqb_eq) in E.
  apply NoDup_app; [assumption | constructor; [intros [] | constructor] |].
  intros x Hx [<-|[]]. contradiction.
Qed.

Lemma store_record_inv r pid pat :
  registry_inv r -> registry_inv (store_record r pid pat).
Proof.
  intros [Hp [Hi [[Hb1 Hb2] Hr]]]. unfold registry_inv, store_record.
  cbn [pattern_to_id id_to_pattern next_id].
  split; [exact (dict_set_keys_NoDup _ bytes_eqb_eq _ _ _ Hp)|].
  split; [exact (dict_set_keys_NoDup _ N_eqb_eq _ _ _ Hi)|].
  split; [split|].
  - intros q qid Hin. cbn [pattern_to_id next_id] in *.
    apply (in_dict_set _ bytes_eqb_eq) in Hin.
    destruct Hin as [[= -> ->]|Hin]; [lia|]. specialize (Hb1 _ _ Hin). lia.
  - intros qid q Hin. cbn [id_to_pattern next_id] in *.
    apply (in_dict_set _ N_eqb_eq) in Hin.
    destruct Hin as [[= -> ->]|Hin]; [lia|]. specialize (Hb2 _ _ Hin). lia.
  - intros q qid Hin. unfold lookup. cbn [pattern_to_id id_to_pattern] in *.
    apply (in_dict_set _ bytes_eqb_eq) in Hin.
    destruct (N.eq_dec qid pid) as [->|Hne].
    + rewrite (dict_get_set_same _ N_eqb_eq). discriminate.
    + rewrite (dict_get_set_other _ N_eqb_eq) by assumption.
      destruct Hin as [[= -> ->]|Hin]; [congruence|].
      apply (Hr _ _ Hin).
Qed.

Lemma register_new_is_store r pattern :
  dict_get bytes_eqb (pattern_to_id r) pattern = None ->
  register r pattern = (next_id r, store_record r (next_id r) pattern).
Proof.
  intros H. unfold register, store_record. rewrite H. f_equal. f_equal. lia.
Qed.

Lemma register_inv r pattern :
  registry_inv r -> registry_inv (snd (register r pattern)).
Proof.
  intros H.
  destruct (dict_get bytes_eqb (pattern_to_id r) pattern) eqn:E.
  - unfold register. now rewrite E.
  - rewrite (register_new_is_store _ _ E). now apply store_record_inv.
Qed.

Lemma deserialize_loop_inv count : forall r buf,
  registry_inv r -> registry_inv (fst (deserialize_loop count r buf)).
Proof.
  induction count as [|count IH]; intros r buf H;
    cbn [deserialize_loop]; [assumption|].
  destruct (unpack_u32 (firstn 4 buf)); [|assumption].
  destruct (unpack_u32 (firstn 4 (skipn 4 buf))); [|assumption].
  apply IH. now apply store_record_inv.
Qed.

Lemma deserialize_inv r data :
  registry_inv r -> registry_inv (fst (deserialize r data)).
Proof.
  intros H. unfold deserialize.
  destruct (firstn 4 data) as [|b0 bs]; [assumption|].
  destruct (unpack_u32 (b0 :: bs)); [|assumption].
  now apply deserialize_loop_inv.
Qed.

Lemma empty_registry_inv : registry_inv empty_registry.
Proof.
  repeat split; simpl; try constructor; intros ? ? [].
Qed.

Lemma reachable_inv r : reachable r -> registry_inv r.
Proof.
  induction 1.
  - apply empty_registry_inv.
  - now apply register_inv.
  - now apply deserialize_inv.
Qed.

Lemma example_registry_reachable : reachable example_registry.
Proof.
  exact (reachable_register empty_registry [x41; x41; x41; x41]
           reachable_init).
Qed.

(** X1. Whatever sequence of register and deserialize calls built it
    (failed deserialize calls included), a registry keeps every identifier
    of both dicts below the counter, maps every pattern to an identifier
    that lookup resolves, and holds no key twice. *)
Theorem reachable_registry_invariant r :
  reachable r ->
  NoDup (dict_keys (pattern_to_id r))
  /\ NoDup (dict_keys (id_to_pattern r))
  /\ ids_below_counter r
  /\ ids_resolvable r.
Proof. exact (reachable_inv r). Qed.

Lemma reachable_registry_invariant_witness :
  reachable (fst (deserialize example_registry [x00; x00; x00; x02;
                                                 x00; x00; x00; x09;
                                                 x00; x00; x00; x01; x42;
                                                 x00]))
  /\ ids_below_counter
       (fst (deserialize example_registry [x00; x00; x00; x02;
                                            x00; x00; x00; x09;
                                            x00; x00; x00; x01; x42;
                                            x00])).
Proof.
  assert (H : reachable
                (fst (deserialize example_registry
                        [x00; x00; x00; x02; x00; x00; x00; x09;
                         x00; x00; x00; x01; x42; x00])))
    by (apply reachable_deserialize, example_registry_reachable).
  split; [exact H|].
  exact (proj1 (proj2 (proj2 (reachable_registry_invariant _ H)))).
Defined.

(** X2. In a reachable registry, registering a pattern that is not yet
    known returns the counter as identifier; no pattern maps to that
    identifier and lookup of it fails before the call, and after the call
    lookup of it returns the pattern. *)
Theorem register_allocates_fresh r pattern :
  reachable r ->
  dict_get bytes_eqb (pattern_to_id r) pattern = None ->
  fst (register r pattern) = next_id r
  /\ lookup r (next_id r) = None
  /\ (forall q, ~ In (q, next_id r) (pattern_to_id r))
  /\ lookup (snd (register r pattern)) (next_id r) = Some pattern.
Proof.
  intros Hr Hnew. destruct (reachable_inv r Hr) as [_ [_ [[Hb1 Hb2] _]]].
  rewrite (register_new_is_store _ _ Hnew). cbn [fst snd].
  split; [reflexivity|]. split; [|split].
  - unfold lookup.
    destruct (dict_get N.eqb (id_to_pattern r) (next_id r)) eqn:E;
      [|reflexivity].
    apply (dict_get_Some_In _ N_eqb_eq) in E. apply Hb2 in E. lia.
  - intros q Hin. apply Hb1 in Hin. lia.
  - unfold lookup, store_record. cbn [id_to_pattern].
    apply (dict_get_set_same _ N_eqb_eq).
Qed.

Lemma register_allocates_fresh_witness :
  reachable example_registry
  /\ dict_get bytes_eqb (pattern_to_id example_registry) [x42] = None
  /\ fst (register example_registry [x42]) = next_id example_registry
  /\ lookup (snd (register example_registry [x42]))
       (next_id example_registry) = Some [x42].
Proof.
  assert (H : dict_get bytes_eqb (pattern_to_id example_registry) [x42]
              = None) by reflexivity.
  split; [exact example_registry_reachable|]. split; [exact H|].
  pose proof (register_allocates_fresh example_registry [x42]
                example_registry_reachable H) as [H1 [_ [_ H4]]].
  split; [exact H1 | exact H4].
Defined.

Lemma lookup_store_other r pid pat qid :
  qid <> pid -> lookup (store_record r pid pat) qid = lookup r qid.
Proof.
  intros Hne. unfold lookup, store_record. cbn [id_to_pattern].
  now apply (dict_get_set_other _ N_eqb_eq).
Qed.

(** Lookups that succeed are not changed by a later register. *)
Lemma lookup_register_kept r pattern qid q :
  ids_below_counter r ->
  lookup r qid = Some q ->
  lookup (snd (register r pattern)) qid = Some q.
Proof.
  intros [_ Hb2] Hl.
  destruct (dict_get bytes_eqb (pattern_to_id r) pattern) eqn:E.
  - unfold register. now rewrite E.
  - rewrite (register_new_is_store _ _ E). cbn [snd].
    rewrite lookup_store_other; [assumption|].
    apply (dict_get_Some_In _ N_eqb_eq) in Hl. apply Hb2 in Hl. lia.
Qed.

(** X3. In a registry that satisfies the bijection invariant and keeps its
    identifiers below the counter, register followed by lookup of the
    returned identifier gives the pattern back, for a known pattern and
    for a new one, and the registry after the call satisfies both
    properties again. *)
Theorem register_lookup_roundtrip r pattern :
  registry_consistent r ->
  ids_below_counter r ->
  lookup (snd (register r pattern)) (fst (register r pattern)) = Some pattern
  /\ registry_consistent (snd (register r pattern))
  /\ ids_below_counter (snd (register r pattern)).
Proof.
  intros Hc Hb.
  destruct (dict_get bytes_eqb (pattern_to_id r) pattern) as [pid|] eqn:E.
  - unfold register. rewrite E. cbn [fst snd].
    split; [|split; assumption].
    apply Hc. now apply (dict_get_Some_In _ bytes_eqb_eq).
  - rewrite (register_new_is_store _ _ E). cbn [fst snd].
    split; [|split].
    + unfold lookup, store_record. cbn [id_to_pattern].
      apply (dict_get_set_same _ N_eqb_eq).
    + intros q qid Hin. unfold store_record in Hin.
      cbn [pattern_to_id] in Hin.
      apply (in_dict_set _ bytes_eqb_eq) in Hin.
      destruct Hin as [[= -> ->]|Hin].
      * unfold lookup, store_record. cbn [id_to_pattern].
        apply (dict_get_set_same _ N_eqb_eq).
      * rewrite lookup_store_other; [now apply Hc|].
        destruct Hb as [Hb1 _]. apply Hb1 in Hin. lia.
    + destruct Hb as [Hb1 Hb2]. split.
      * intros q qid Hin. unfold store_record in *.
        cbn [pattern_to_id next_id] in *.
        apply (in_dict_set _ bytes_eqb_eq) in Hin.
        destruct Hin as [[= -> ->]|Hin]; [lia|]. apply Hb1 in Hin. lia.
      * intros qid q Hin. unfold store_record in *.
        cbn [id_to_pattern next_id] in *.
        apply (in_dict_set _ N_eqb_eq) in Hin.
        destruct Hin as [[= -> ->]|Hin]; [lia|]. apply Hb2 in Hin. lia.
Qed.

Lemma example_registry_below : ids_below_counter example_registry.
Proof. apply (reachable_inv _ example_registry_reachable). Qed.

Lemma register_lookup_roundtrip_witness :
  registry_consistent example_registry
  /\ ids_below_counter example_registry
  /\ lookup (snd (register example_registry [x42; x43]))
       (fst (register example_registry [x42; x43])) = Some [x42; x43].
Proof.
  assert (Hc : registry_consistent example_registry)
    by apply registry_of_consistent.
  split; [exact Hc|]. split; [exact example_registry_below|].
  exact (proj1 (register_lookup_roundtrip example_registry [x42; x43]
                  Hc example_registry_below)).
Defined.

(** X4. In a registry built by register calls, lookup fails (the KeyError)
    exactly for the identifiers that are not below the number of entries,
    and for an identifier below it returns a pattern that maps back to
    it. *)
Theorem lookup_registry_of ps pid :
  (lookup (registry_of ps) pid = None
   <-> N.of_nat (length (pattern_to_id (registry_of ps))) <= pid)
  /\ (forall pattern,
        lookup (registry_of ps) pid = Some pattern
        <-> In (pattern, pid) (pattern_to_id (registry_of ps))).
Proof.
  rewrite registry_of_numbered. set (qs := first_seen [] ps).
  rewrite numbered_entries. split.
  - unfold lookup. rewrite (dict_get_None_notin _ N_eqb_eq).
    rewrite numbered_id_keys, first_ids_In. lia.
  - intros pattern. split.
    + intros H. apply (dict_get_Some_In _ N_eqb_eq) in H.
      simpl in *. now apply in_combine_swap.
    + apply numbered_consistent.
Qed.

Lemma decompress_loop_register r pattern data :
  ids_below_counter r ->
  forall fuel i output result,
    decompress_loop fuel r data i output = Done result ->
    decompress_loop fuel (snd (register r pattern)) data i output
    = Done result.
Proof.
  intros Hb. induction fuel as [|fuel IH]; intros i output result;
    cbn [decompress_loop].
  - destruct (i <? length data)%nat; [discriminate | auto].
  - destruct (i <? length data)%nat; [|auto].
    destruct (Byte.eqb (byte_at data i) ESCAPE_BYTE); [|apply IH].
    destruct (varint_decode data (i + 1)) as [[pid consumed]|];
      [|discriminate].
    destruct (lookup r pid) as [pat|] eqn:El; [|discriminate].
    rewrite (lookup_register_kept r pattern pid pat Hb El). apply IH.
Qed.

(** X5. Registering a pattern never invalidates a compressed stream: when
    the identifiers of a registry are below its counter, a stream that
    decompress accepts is accepted with the same result after any further
    register call. *)
Theorem register_keeps_streams_decodable r pattern data metadata result :
  ids_below_counter r ->
  decompress r data metadata = Done result ->
  decompress (snd (register r pattern)) data metadata = Done result.
Proof.
  intros Hb. unfold decompress, reconstruct.
  destruct (decompress_loop (length data) r data 0 []) as [rebuilt| |] eqn:E;
    try discriminate.
  now rewrite (decompress_loop_register r pattern data Hb _ _ _ _ E).
Qed.

Lemma register_keeps_streams_decodable_witness :
  ids_below_counter example_registry
  /\ decompress example_registry example_l8_out example_l8_meta
     = Done example_input
  /\ decompress (snd (register example_registry [x42; x43]))
       example_l8_out example_l8_meta
     = Done example_input.
Proof.
  assert (H : decompress example_registry example_l8_out example_l8_meta
              = Done example_input) by (vm_compute; reflexivity).
  split; [exact example_registry_below|]. split; [exact H|].
  exact (register_keeps_streams_decodable example_registry [x42; x43]
           example_l8_out example_l8_meta example_input
           example_registry_below H).
Defined.

(* ================================================================== *)
(** * Further properties of the snapshot format *)

Lemma unpack_u32_short (b : bytes) :
  (length b < 4)%nat -> unpack_u32 b = None.
Proof.
  destruct b as [|b0 [|b1 [|b2 [|b3 b]]]]; simpl; try reflexivity; lia.
Qed.

(** Reading the records that serialize wrote stores each of them in order
    and leaves the loop at the bytes that follow. *)
Lemma deserialize_loop_app items : forall r recs rest n,
  serialize_records items = Done recs ->
  deserialize_loop (length items + n) r (recs ++ rest)
  = deserialize_loop n (store_all r items) rest.
Proof.
  induction items as [|[pid pat] items IH]; intros r recs rest n;
    cbn [serialize_records length Nat.add].
  - intros [= <-]. reflexivity.
  - destruct (pack_u32 pid) as [bpid|] eqn:Ep; [|discriminate].
    destruct (pack_u32 (N.of_nat (length pat))) as [blen|] eqn:El;
      [|discriminate].
    destruct (serialize_records items) as [recs'| |] eqn:Er;
      try discriminate.
    intros [= <-]. cbn [deserialize_loop].
    destruct (unpack_pack_u32 _ _ Ep) as [Up Lp].
    destruct (unpack_pack_u32 _ _ El) as [Ul Ll].
    rewrite <- !app_assoc.
    rewrite (firstn_4_app _ _ Lp), Up, (skipn_4_app _ _ Lp).
    rewrite (firstn_4_app _ _ Ll), Ul, (skipn_4_app _ _ Ll).
    rewrite Nat2N.id, firstn_length_app, skipn_length_app.
    now apply IH.
Qed.

Lemma deserialize_snapshot_app r0 r snapshot rest :
  serialize r0 = Done snapshot ->
  deserialize r (snapshot ++ rest)
  = (store_all r (id_to_pattern r0), Done tt).
Proof.
  unfold serialize.
  destruct (pack_u32 (N.of_nat (length (id_to_pattern r0)))) as [bcount|]
    eqn:Ec; [|discriminate].
  destruct (serialize_records (id_to_pattern r0)) as [recs| |] eqn:Er;
    try discriminate.
  intros [= <-].
  destruct (unpack_pack_u32 _ _ Ec) as [Uc Lc].
  unfold deserialize. rewrite <- app_assoc.
  rewrite (firstn_4_app _ _ Lc), (skipn_4_app _ _ Lc).
  destruct bcount as [|b0 bcount]; [discriminate|].
  rewrite Uc, Nat2N.id.
  rewrite <- (Nat.add_0_r (length (id_to_pattern r0))).
  now rewrite (deserialize_loop_app _ _ _ _ _ Er).
Qed.

(** X6. Deserialize of a snapshot that serialize returned, into any
    registry, never raises: it stores the records of the snapshot one by
    one in the order serialize wrote them, and bytes that follow the
    snapshot are ignored. *)
Theorem deserialize_merges_snapshot r0 r snapshot trailing :
  serialize r0 = Done snapshot ->
  deserialize r (snapshot ++ trailing)
  = (store_all r (id_to_pattern r0), Done tt)
  /\ deserialize r (snapshot ++ trailing) = deserialize r snapshot.
Proof.
  intros H. split.
  - now apply deserialize_snapshot_app.
  - rewrite (deserialize_snapshot_app r0 r snapshot trailing H).
    symmetry. rewrite <- (app_nil_r snapshot).
    exact (deserialize_snapshot_app r0 r snapshot [] H).
Qed.

Lemma deserialize_merges_snapshot_witness :
  serialize example_registry = Done example_snapshot
  /\ deserialize tie_registry (example_snapshot ++ [xff; xff])
     = deserialize tie_registry example_snapshot.
Proof.
  assert (H : serialize example_registry = Done example_snapshot)
    by (vm_compute; reflexivity).
  split; [exact H|].
  exact (proj2 (deserialize_merges_snapshot example_registry tie_registry
                  example_snapshot [xff; xff] H)).
Defined.

Lemma store_record_same r pid pat :
  dict_get bytes_eqb (pattern_to_id r) pat = Some pid ->
  dict_get N.eqb (id_to_pattern r) pid = Some pat ->
  pid < next_id r ->
  store_record r pid pat = r.
Proof.
  intros Hp Hi Hn. unfold store_record.
  rewrite (dict_set_present _ _ _ _ Hp), (dict_set_present _ _ _ _ Hi).
  rewrite N.max_l by lia. now destruct r.
Qed.

Lemma store_all_same r items :
  (forall pid pat, In (pid, pat) items ->
     dict_get bytes_eqb (pattern_to_id r) pat = Some pid
     /\ dict_get N.eqb (id_to_pattern r) pid = Some pat
     /\ pid < next_id r) ->
  store_all r items = r.
Proof.
  unfold store_all. induction items as [|[pid pat] items IH]; intros H;
    simpl; [reflexivity|].
  destruct (H pid pat (or_introl eq_refl)) as [Hp [Hi Hn]].
  rewrite (store_record_same _ _ _ Hp Hi Hn). apply IH.
  intros. apply H. now right.
Qed.

Lemma store_all_numbered_self qs :
  NoDup qs -> store_all (numbered qs) (id_to_pattern (numbered qs))
              = numbered qs.
Proof.
  intros Hnd. apply store_all_same. intros pid pat Hin.
  split; [|split].
  - apply (In_dict_get _ bytes_eqb_eq).
    + now rewrite numbered_pattern_keys.
    + simpl in *. now apply in_combine_swap.
  - apply (In_dict_get _ N_eqb_eq); [|assumption].
    rewrite numbered_id_keys. apply first_ids_NoDup.
  - simpl in *. apply in_combine_l in Hin. now apply first_ids_In in Hin.
Qed.

(** X7. Restoring a snapshot into the registry it was taken from changes
    nothing: for a registry built by register calls, deserialize of its own
    snapshot returns normally and leaves both dicts and the counter as
    they were. *)
Theorem deserialize_own_snapshot ps snapshot :
  serialize (registry_of ps) = Done snapshot ->
  deserialize (registry_of ps) snapshot = (registry_of ps, Done tt).
Proof.
  intros H. rewrite <- (app_nil_r snapshot).
  rewrite (deserialize_snapshot_app _ (registry_of ps) snapshot [] H).
  f_equal. rewrite registry_of_numbered. apply store_all_numbered_self.
  apply (first_seen_spec ps [] (NoDup_nil _)).
Qed.

Lemma deserialize_own_snapshot_witness :
  serialize (registry_of [[x41; x41; x41; x41]]) = Done example_snapshot
  /\ deserialize (registry_of [[x41; x41; x41; x41]]) example_snapshot
     = (registry_of [[x41; x41; x41; x41]], Done tt).
Proof.
  assert (H : serialize (registry_of [[x41; x41; x41; x41]])
              = Done example_snapshot) by (vm_compute; reflexivity).
  split; [exact H|].
  exact (deserialize_own_snapshot [[x41; x41; x41; x41]] example_snapshot H).
Defined.

(** X8. Deserialize is not atomic. When the stream announces more records
    than it holds and ends fewer than four bytes after the last complete
    record, deserialize raises the struct error, and the records read
    before the end stay stored in the registry. *)
Theorem deserialize_truncated_keeps_prefix r items count bcount recs tail :
  pack_u32 count = Some bcount ->
  serialize_records items = Done recs ->
  (length items < N.to_nat count)%nat ->
  (length tail < 4)%nat ->
  deserialize r (bcount ++ recs ++ tail)
  = (store_all r items, Raise StructError).
Proof.
  intros Hc Hr Hn Ht.
  destruct (unpack_pack_u32 _ _ Hc) as [Uc Lc].
  unfold deserialize.
  rewrite (firstn_4_app _ _ Lc), (skipn_4_app _ _ Lc).
  destruct bcount as [|b0 bcount]; [discriminate|].
  rewrite Uc.
  replace (N.to_nat count)
    with (length items + S (N.to_nat count - length items - 1))%nat by lia.
  rewrite (deserialize_loop_app _ _ _ _ _ Hr).
  cbn [deserialize_loop].
  rewrite firstn_all2 by lia.
  now rewrite (unpack_u32_short tail Ht).
Qed.

Lemma deserialize_truncated_keeps_prefix_witness :
  pack_u32 2 = Some [x00; x00; x00; x02]
  /\ serialize_records [(0, [x41; x42])]
     = Done [x00; x00; x00; x00; x00; x00; x00; x02; x41; x42]
  /\ (length [(0, [x41; x42])] < N.to_nat 2)%nat
  /\ (length [x00; x00; x00] < 4)%nat
  /\ deserialize empty_registry
       ([x00; x00; x00; x02]
        ++ [x00; x00; x00; x00; x00; x00; x00; x02; x41; x42]
        ++ [x00; x00; x00])
     = (store_all empty_registry [(0, [x41; x42])], Raise StructError).
Proof.
  assert (H1 : pack_u32 2 = Some [x00; x00; x00; x02]) by reflexivity.
  assert (H2 : serialize_records [(0, [x41; x42])]
               = Done [x00; x00; x00; x00; x00; x00; x00; x02; x41; x42])
    by reflexivity.
  assert (H3 : (length [(0, [x41; x42])] < N.to_nat 2)%nat)
    by (simpl; lia).
  assert (H4 : (length [x00; x00; x00] < 4)%nat) by (simpl; lia).
  split; [exact H1|]. split; [exact H2|]. split; [exact H3|].
  split; [exact H4|].
  exact (deserialize_truncated_keeps_prefix empty_registry _ _ _ _ _
           H1 H2 H3 H4).
Defined.

Lemma pack_u32_fits n :
  (n < 2 ^ 32 -> exists b, pack_u32 n = Some b /\ length b = 4%nat)
  /\ (~ n < 2 ^ 32 -> pack_u32 n = None).
Proof.
  unfold pack_u32. destruct (n <? 2 ^ 32) eqn:E.
  - apply N.ltb_lt in E. split; [eauto | contradiction].
  - apply N.ltb_ge in E. split; [lia | reflexivity].
Qed.

Lemma serialize_records_cases items :
  (exists recs,
      serialize_records items = Done recs
      /\ Forall (fun kv => fst kv < 2 ^ 32
                           /\ N.of_nat (length (snd kv)) < 2 ^ 32) items
      /\ length recs
         = list_sum (map (fun kv => 8 + length (snd kv))%nat items))
  \/ (serialize_records items = Raise StructError
      /\ ~ Forall (fun kv => fst kv < 2 ^ 32
                             /\ N.of_nat (length (snd kv)) < 2 ^ 32) items).
Proof.
  induction items as [|[pid pat] items IH]; cbn [serialize_records].
  - left. exists []. repeat split. constructor.
  - destruct (N.lt_ge_cases pid (2 ^ 32)) as [Hp|Hp].
    + destruct (proj1 (pack_u32_fits pid) Hp) as [bpid [-> Lp]].
      destruct (N.lt_ge_cases (N.of_nat (length pat)) (2 ^ 32)) as [Hl|Hl].
      * destruct (proj1 (pack_u32_fits _) Hl) as [blen [-> Ll]].
        destruct IH as [[recs [-> [Hf Hlen]]]|[-> Hnf]].
        -- left. eexists. split; [reflexivity|]. split.
           ++ constructor; [split; assumption | assumption].
           ++ rewrite !length_app, Lp, Ll, Hlen. simpl. lia.
        -- right. split; [reflexivity|]. intros H. inversion H. auto.
      * rewrite (proj2 (pack_u32_fits _)) by lia.
        right. split; [reflexivity|]. intros H. inversion H as [|? ? [_ H1]].
        simpl in H1. lia.
    + rewrite (proj2 (pack_u32_fits _)) by lia.
      right. split; [reflexivity|]. intros H. inversion H as [|? ? [H1 _]].
      simpl in H1. lia.
Qed.

(** X9. Serialize returns a snapshot exactly when the number of entries,
    every identifier and every pattern length fit 32 bits, and raises the
    struct error otherwise. The snapshot has four bytes for the count and,
    for every entry, eight bytes and the pattern. *)
Theorem serialize_outcome r :
  (fits_u32 r ->
   exists snapshot,
     serialize r = Done snapshot
     /\ length snapshot = snapshot_size (id_to_pattern r))
  /\ (~ fits_u32 r -> serialize r = Raise StructError).
Proof.
  unfold fits_u32, serialize, snapshot_size. split.
  - intros [Hc Hf].
    destruct (proj1 (pack_u32_fits _) Hc) as [bcount [-> Lc]].
    destruct (serialize_records_cases (id_to_pattern r))
      as [[recs [-> [_ Hlen]]]|[_ Hnf]]; [|contradiction].
    eexists. split; [reflexivity|]. rewrite length_app, Lc, Hlen. reflexivity.
  - intros Hn.
    destruct (N.lt_ge_cases (N.of_nat (length (id_to_pattern r))) (2 ^ 32))
      as [Hc|Hc].
    + destruct (proj1 (pack_u32_fits _) Hc) as [bcount [-> _]].
      destruct (serialize_records_cases (id_to_pattern r))
        as [[recs [_ [Hf _]]]|[-> _]]; [|reflexivity].
      exfalso. apply Hn. split; assumption.
    + now rewrite (proj2 (pack_u32_fits _)) by lia.
Qed.

Lemma serialize_outcome_witness :
  fits_u32 example_registry
  /\ exists snapshot,
       serialize example_registry = Done snapshot
       /\ length snapshot = snapshot_size (id_to_pattern example_registry).
Proof.
  assert (H : fits_u32 example_registry).
  { split; [reflexivity|]. repeat constructor. }
  split; [exact H|].
  exact (proj1 (serialize_outcome example_registry) H).
Defined.

(* ================================================================== *)
(** * Further properties of the codec *)

Lemma is_prefix_length pattern : forall rest,
  is_prefix pattern rest = true -> (length pattern <= length rest)%nat.
Proof.
  induction pattern as [|x p IH]; intros [|y rest]; simpl;
    try discriminate; try lia.
  rewrite andb_true_iff. intros [_ H]. apply IH in H. lia.
Qed.

Lemma is_prefix_refl pattern : is_prefix pattern pattern = true.
Proof.
  rewrite <- (app_nil_r pattern) at 2. apply is_prefix_app.
Qed.

(** At the start of a registered pattern the scan chooses that pattern. *)
Lemma find_match_registered r pattern pid :
  NoDup (dict_keys (pattern_to_id r)) ->
  In (pattern, pid) (pattern_to_id r) ->
  find_match (sorted_patterns r) pattern 0 = Some (pattern, pid).
Proof.
  intros Hnd Hin.
  assert (Hself : startswith pattern pattern 0 = true)
    by apply is_prefix_refl.
  destruct (find_match (sorted_patterns r) pattern 0) as [[q qid]|] eqn:F.
  - destruct (find_match_Some _ _ _ _ _ F) as [Hq Hm].
    assert (Hle := find_match_longest _ _ _ _ _ (sort_by_length_sorted _) F
                     pattern pid (proj2 (sorted_patterns_In _ _) Hin) Hself).
    assert (Hge : (length q <= length pattern)%nat)
      by (apply (is_prefix_length q), Hm).
    assert (q = pattern).
    { apply (is_prefix_same_length q pattern (skipn 0 pattern));
        [exact Hm | exact Hself | lia]. }
    subst q. apply sorted_patterns_In in Hq.
    now rewrite (keys_functional _ _ _ _ Hnd Hq Hin).
  - rewrite find_match_None in F.
    rewrite (F pattern pid) in Hself; [discriminate|].
    now apply sorted_patterns_In.
Qed.

(** X10. A registered, non-empty pattern given as the whole input is
    compressed to exactly its pointer: the marker byte and the encoded
    identifier. *)
Theorem compress_registered_pattern r pattern pid :
  NoDup (dict_keys (pattern_to_id r)) ->
  In (pattern, pid) (pattern_to_id r) ->
  pattern <> [] ->
  exists m,
    compress r pattern = Done (ESCAPE_BYTE :: varint_encode pid, m)
    /\ original_size m = N.of_nat (length pattern)
    /\ compressed_size m = N.of_nat (S (length (varint_encode pid))).
Proof.
  intros Hnd Hin Hne.
  destruct (compress_of_scan r pattern [Ptr pattern pid])
    as [m [Hc [_ [Ho [Hs _]]]]].
  - destruct pattern as [|b p]; [congruence|].
    cbn [scan length]. cbn [Nat.ltb Nat.leb].
    rewrite (find_match_registered r (b :: p) pid Hnd Hin).
    cbn [Nat.add length].
    destruct (length p) as [|n] eqn:El; cbn [scan];
      cbn [length]; rewrite El, Nat.ltb_irrefl; reflexivity.
  - exists m. cbn [flat_map emit] in *. rewrite app_nil_r in *.
    split; [exact Hc|]. split; [exact Ho | exact Hs].
Qed.

Lemma compress_registered_pattern_witness :
  NoDup (dict_keys (pattern_to_id tie_registry))
  /\ In ([x42; x42], 2) (pattern_to_id tie_registry)
  /\ [x42; x42] <> []
  /\ exists m,
       compress tie_registry [x42; x42]
       = Done (ESCAPE_BYTE :: varint_encode 2, m)
       /\ original_size m = N.of_nat (length [x42; x42])
       /\ compressed_size m = N.of_nat (S (length (varint_encode 2))).
Proof.
  assert (H1 : NoDup (dict_keys (pattern_to_id tie_registry)))
    by apply registry_of_keys_NoDup.
  assert (H2 : In ([x42; x42], 2) (pattern_to_id tie_registry))
    by (simpl; auto).
  assert (H3 : [x42; x42] <> []) by discriminate.
  split; [exact H1|]. split; [exact H2|]. split; [exact H3|].
  exact (compress_registered_pattern tie_registry [x42; x42] 2 H1 H2 H3).
Defined.

(** X11. With the empty pattern registered, compress never returns on a
    non-empty input at whose first position no non-empty registered
    pattern occurs: the scan matches the empty pattern, does not advance,
    and repeats; no number of iterations ends the loop. *)
Theorem compress_diverges_on_empty_pattern r pid data :
  In ([], pid) (pattern_to_id r) ->
  data <> [] ->
  (forall q qid, In (q, qid) (pattern_to_id r) -> q <> [] ->
     startswith data q 0 = false) ->
  compress r data = Diverge
  /\ (forall fuel,
        compress_loop fuel (sorted_patterns r) data 0 [] = Diverge).
Proof.
  intros Hin Hne Hno.
  assert (Hlen : (0 < length data)%nat)
    by (destruct data; [congruence | simpl; lia]).
  assert (Hd : compress r data = Diverge).
  { unfold compress. rewrite compress_loop_scan.
    destruct (find_match (sorted_patterns r) data 0) as [[q qid]|] eqn:F.
    - destruct (find_match_Some _ _ _ _ _ F) as [Hq Hm].
      apply sorted_patterns_In in Hq.
      destruct q as [|b q].
      + now rewrite (scan_stalls _ _ _ qid Hlen F).
      + rewrite (Hno (b :: q) qid Hq) in Hm; [discriminate | discriminate].
    - rewrite find_match_None in F.
      specialize (F [] pid (proj2 (sorted_patterns_In _ _) Hin)).
      discriminate. }
  split; [exact Hd|]. now apply compress_loop_diverges.
Qed.

Lemma compress_diverges_on_empty_pattern_witness :
  In ([], 0) (pattern_to_id (registry_of [[]; [x41]]))
  /\ [x42] <> []
  /\ compress (registry_of [[]; [x41]]) [x42] = Diverge.
Proof.
  assert (H1 : In ([], 0) (pattern_to_id (registry_of [[]; [x41]])))
    by (simpl; auto).
  assert (H2 : [x42] <> []) by discriminate.
  split; [exact H1|]. split; [exact H2|].
  apply (compress_diverges_on_empty_pattern _ 0 [x42] H1 H2).
  intros q qid Hq Hne. simpl in Hq.
  destruct Hq as [[= <- <-]|[[= <- <-]|[]]]; [congruence | reflexivity].
Defined.

Lemma flat_map_expand_Lit l : flat_map expand (map Lit l) = l.
Proof. induction l; simpl; congruence. Qed.

Lemma reconstruct_tokens r toks :
  Forall (decodable r) toks ->
  reconstruct r (flat_map emit toks) = Done (flat_map expand toks).
Proof.
  intros H. unfold reconstruct.
  exact (decompress_loop_tokens r toks _ [] [] H (Nat.le_refl _)).
Qed.

(** X12. Decompress leaves a stream without marker bytes as it is, whatever
    the registry holds: the rebuilt bytes are the stream, and decompress
    returns it when the metadata carries no digest or the digest of the
    stream. *)
Theorem decompress_passes_plain_bytes r data :
  ~ In ESCAPE_BYTE data ->
  reconstruct r data = Done data
  /\ (forall metadata,
        integrity_hash metadata = [] \/ integrity_hash metadata = sha256 data ->
        decompress r data metadata = Done data).
Proof.
  intros Hm.
  assert (Hr : reconstruct r data = Done data).
  { pose proof (reconstruct_tokens r (map Lit data)) as H.
    rewrite flat_map_emit_Lit, flat_map_expand_Lit in H. apply H.
    rewrite Forall_forall. intros t Ht. apply in_map_iff in Ht.
    destruct Ht as [b [<- Hb]]. simpl. intros ->. contradiction. }
  split; [exact Hr|].
  intros metadata Hh. unfold decompress. rewrite Hr.
  destruct Hh as [Hh|Hh].
  - unfold verify_integrity. now rewrite Hh.
  - now apply verify_integrity_own_digest.
Qed.

Lemma decompress_passes_plain_bytes_witness :
  ~ In ESCAPE_BYTE [x41; x41; x41; x41; xff]
  /\ reconstruct example_registry [x41; x41; x41; x41; xff]
     = Done [x41; x41; x41; x41; xff].
Proof.
  assert (H : ~ In ESCAPE_BYTE [x41; x41; x41; x41; xff])
    by (simpl; intuition discriminate).
  split; [exact H|].
  exact (proj1 (decompress_passes_plain_bytes example_registry _ H)).
Defined.

Lemma emit_nonempty t : (1 <= length (emit t))%nat.
Proof. destruct t; simpl; lia. Qed.

Lemma tokens_le_emitted toks :
  (length toks <= length (flat_map emit toks))%nat.
Proof.
  induction toks as [|t toks IH]; simpl; [lia|].
  rewrite length_app. pose proof (emit_nonempty t). lia.
Qed.

(** Decoding a well-formed prefix takes one iteration for each decision
    and leaves the loop at the first byte after it. *)
Lemma decompress_loop_prefix r toks : forall fuel pre suffix output,
  Forall (decodable r) toks ->
  decompress_loop (length toks + fuel) r
    (pre ++ flat_map emit toks ++ suffix) (length pre) output
  = decompress_loop fuel r
      ((pre ++ flat_map emit toks) ++ suffix)
      (length (pre ++ flat_map emit toks))
      (output ++ flat_map expand toks).
Proof.
  induction toks as [|t toks IH]; intros fuel pre suffix output Hdec.
  - simpl. now rewrite !app_nil_r.
  - inversion Hdec as [|? ? Ht Hrest]; subst.
    cbn [flat_map length Nat.add].
    destruct t as [b|p pid]; cbn [emit expand app] in *.
    + rewrite decompress_loop_literal by exact Ht.
      rewrite IH by assumption.
      rewrite <- !app_assoc. reflexivity.
    + rewrite <- app_assoc.
      rewrite (decompress_loop_pointer _ _ _ _ p) by exact Ht.
      rewrite IH by assumption.
      repeat rewrite <- app_assoc. cbn [app].
      repeat rewrite <- app_assoc. reflexivity.
Qed.

Lemma decompress_loop_prefix_start r toks fuel suffix :
  Forall (decodable r) toks ->
  decompress_loop (length toks + fuel) r (flat_map emit toks ++ suffix) 0 []
  = decompress_loop fuel r (flat_map emit toks ++ suffix)
      (length (flat_map emit toks)) (flat_map expand toks).
Proof.
  intros H. exact (decompress_loop_prefix r toks fuel [] suffix [] H).
Qed.

(** X13. An identifier the registry does not know is fatal. When the
    stream starts with well-formed literal bytes and pointers and then
    holds a pointer whose identifier lookup does not resolve, decompress
    raises the KeyError, whatever follows and whatever the metadata. A
    marker that is the last byte of such a stream makes it raise the
    decoder's error. *)
Theorem decompress_unknown_identifier r toks pid :
  Forall (decodable r) toks ->
  lookup r pid = None ->
  (forall rest metadata,
      decompress r
        (flat_map emit toks ++ ESCAPE_BYTE :: varint_encode pid ++ rest)
        metadata
      = Raise KeyError)
  /\ (forall metadata,
        decompress r (flat_map emit toks ++ [ESCAPE_BYTE]) metadata
        = Raise ValueError).
Proof.
  intros Hdec Hl. split.
  - intros rest metadata. unfold decompress, reconstruct.
    set (data := flat_map emit toks ++ ESCAPE_BYTE :: varint_encode pid ++ rest).
    assert (Hfuel : exists k, length data = (length toks + S k)%nat).
    { exists (length data - length toks - 1)%nat. subst data.
      rewrite length_app. pose proof (tokens_le_emitted toks). simpl. lia. }
    destruct Hfuel as [k ->]. subst data.
    rewrite (decompress_loop_prefix_start r toks (S k) _ Hdec).
    cbn [decompress_loop].
    rewrite ltb_length_app, byte_at_app, byte_eqb_refl.
    replace (length (flat_map emit toks) + 1)%nat
      with (length (flat_map emit toks ++ [ESCAPE_BYTE]))
      by (rewrite length_app; reflexivity).
    replace (flat_map emit toks ++ ESCAPE_BYTE :: varint_encode pid ++ rest)
      with ((flat_map emit toks ++ [ESCAPE_BYTE]) ++ varint_encode pid ++ rest)
      by (now rewrite <- app_assoc).
    now rewrite varint_decode_encode, Hl.
  - intros metadata. unfold decompress, reconstruct.
    set (data := flat_map emit toks ++ [ESCAPE_BYTE]).
    assert (Hfuel : exists k, length data = (length toks + S k)%nat).
    { exists (length data - length toks - 1)%nat. subst data.
      rewrite length_app. pose proof (tokens_le_emitted toks). simpl. lia. }
    destruct Hfuel as [k ->]. subst data.
    rewrite (decompress_loop_prefix_start r toks (S k) _ Hdec).
    cbn [decompress_loop].
    rewrite ltb_length_app, byte_at_app, byte_eqb_refl.
    unfold varint_decode.
    replace (length (flat_map emit toks) + 1)%nat
      with (length (flat_map emit toks ++ [ESCAPE_BYTE]))
      by (rewrite length_app; reflexivity).
    now rewrite skipn_all.
Qed.

Lemma decompress_unknown_identifier_witness :
  Forall (decodable example_registry) [Ptr [x41; x41; x41; x41] 0; Lit x42]
  /\ lookup example_registry 5 = None
  /\ decompress example_registry
       (flat_map emit [Ptr [x41; x41; x41; x41] 0; Lit x42]
        ++ ESCAPE_BYTE :: varint_encode 5 ++ [x43])
       example_l8_meta
     = Raise KeyError.
Proof.
  assert (H1 : Forall (decodable example_registry)
                 [Ptr [x41; x41; x41; x41] 0; Lit x42]).
  { repeat constructor. simpl. discriminate. }
  assert (H2 : lookup example_registry 5 = None) by reflexivity.
  split; [exact H1|]. split; [exact H2|].
  exact (proj1 (decompress_unknown_identifier example_registry _ 5 H1 H2)
           [x43] example_l8_meta).
Defined.

(** X14. Decompress decodes piece by piece: a stream made of literal bytes
    other than the marker and of pointers to identifiers the registry
    resolves is rebuilt as the concatenation of those bytes and of the
    patterns the identifiers resolve to. *)
Theorem decompress_rebuilds_concatenation r toks :
  Forall (decodable r) toks ->
  reconstruct r (flat_map emit toks) = Done (flat_map expand toks)
  /\ (forall metadata,
        integrity_hash metadata = [] ->
        decompress r (flat_map emit toks) metadata
        = Done (flat_map expand toks)).
Proof.
  intros H. pose proof (reconstruct_tokens r toks H) as Hr.
  split; [exact Hr|].
  intros metadata Hh. unfold decompress. rewrite Hr.
  unfold verify_integrity. now rewrite Hh.
Qed.

Lemma decompress_rebuilds_concatenation_witness :
  Forall (decodable example_registry)
    [Lit x42; Ptr [x41; x41; x41; x41] 0; Ptr [x41; x41; x41; x41] 0]
  /\ reconstruct example_registry [x42; xfe; x00; xfe; x00]
     = Done [x42; x41; x41; x41; x41; x41; x41; x41; x41].
Proof.
  assert (H : Forall (decodable example_registry)
                [Lit x42; Ptr [x41; x41; x41; x41] 0;
                 Ptr [x41; x41; x41; x41] 0]).
  { repeat constructor. simpl. discriminate. }
  split; [exact H|].
  exact (proj1 (decompress_rebuilds_concatenation example_registry _ H)).
Defined.

(* ------------------------------------------------------------------ *)
(** ** The digest gate after compress *)

Lemma sha_round_length k wt s : length (SHA256.round k wt s) = length s.
Proof.
  unfold SHA256.round.
  destruct s as [|a [|b [|c [|d [|e [|f [|g [|h [|i s]]]]]]]]]; reflexivity.
Qed.

Lemma sha_rounds_length ks : forall w s,
  length (SHA256.rounds ks w s) = length s.
Proof.
  induction ks as [|k ks IH]; intros w s; cbn [SHA256.rounds];
    [reflexivity|].
  now rewrite IH, sha_round_length.
Qed.

Lemma sha_blocks_length n : forall h msg,
  length (SHA256.blocks n h msg) = length h.
Proof.
  induction n as [|n IH]; intros h msg; cbn [SHA256.blocks]; [reflexivity|].
  rewrite IH. unfold SHA256.process_block.
  rewrite length_map, length_combine, sha_rounds_length. apply Nat.min_id.
Qed.

Lemma sha_be_bytes_length l :
  length (flat_map (SHA256.be_bytes 4) l) = (4 * length l)%nat.
Proof.
  induction l as [|x l IH]; [reflexivity|].
  cbn [flat_map]. rewrite length_app, IH.
  unfold SHA256.be_bytes. rewrite length_map, length_rev, length_seq.
  simpl. lia.
Qed.

(** A digest has 32 bytes. *)
Lemma sha256_length data : length (sha256 data) = 32%nat.
Proof.
  unfold sha256, SHA256.digest.
  now rewrite length_map, sha_be_bytes_length, sha_blocks_length.
Qed.

Lemma sha256_nonempty data : sha256 data <> [].
Proof.
  intros H. pose proof (sha256_length data) as L. rewrite H in L.
  discriminate.
Qed.

Lemma compress_hash r data out m :
  compress r data = Done (out, m) -> integrity_hash m = sha256 data.
Proof.
  unfold compress.
  destruct (compress_loop (length data) (sorted_patterns r) data 0 []);
    try discriminate.
  intros [= _ <-]. reflexivity.
Qed.

Lemma decompress_Done_digest r data m result :
  integrity_hash m <> [] ->
  decompress r data m = Done result ->
  reconstruct r data = Done result /\ sha256 result = integrity_hash m.
Proof.
  intros Hh. unfold decompress.
  destruct (reconstruct r data) as [rebuilt| |]; try discriminate.
  unfold verify_integrity.
  destruct (integrity_hash m) as [|h0 hs] eqn:E; [congruence|].
  destruct (bytes_eqb (sha256 rebuilt) (h0 :: hs)) eqn:B; [|discriminate].
  apply bytes_eqb_eq in B. intros [= <-]. auto.
Qed.

(** X15. Every result of compress carries a non-empty digest, the digest
    of the input, so decompress of it always runs the check: in every
    registry state, when compress followed by decompress returns at all,
    the bytes it returns have the digest of the input. *)
Theorem roundtrip_returns_matching_digest r data :
  (forall out m,
      compress r data = Done (out, m) ->
      integrity_hash m = sha256 data /\ integrity_hash m <> [])
  /\ (forall result,
        roundtrip r data = Done result -> sha256 result = sha256 data).
Proof.
  split.
  - intros out m H. apply compress_hash in H. split; [exact H|].
    rewrite H. apply sha256_nonempty.
  - intros result. unfold roundtrip.
    destruct (compress r data) as [[out m]| |] eqn:E; try discriminate.
    pose proof (compress_hash _ _ _ _ E) as Hh.
    intros H. apply decompress_Done_digest in H.
    + destruct H as [_ H]. congruence.
    + rewrite Hh. apply sha256_nonempty.
Qed.

(* ================================================================== *)
(** * Further properties of the pipeline composer *)

Lemma decompress_hash_only r data m m' :
  integrity_hash m = integrity_hash m' ->
  decompress r data m = decompress r data m'.
Proof.
  intros H. unfold decompress, verify_integrity. now rewrite H.
Qed.

Lemma md_copy_without_layer8 m :
  ~ In L8_ULTRA_EXTREME_MAPPING (layers_applied (md_copy m)).
Proof.
  unfold md_copy. cbn [layers_applied]. rewrite filter_In.
  intros [_ H]. discriminate.
Qed.

(** X16. With an inner pipeline whose compress side returns its input
    bytes, compress_block followed by decompress_block hands the original
    data to the inner pipeline's decompress side, with metadata whose
    applied layers are empty and whose digest and original size are those
    of the data. This holds for a registry with the bijection invariant
    and no empty pattern and for data without the marker byte. *)
Theorem block_roundtrip_unchanged_pipeline inner_c inner_d r data :
  registry_consistent r ->
  patterns_nonempty r ->
  ~ In ESCAPE_BYTE data ->
  (forall b, fst (inner_c b) = b) ->
  exists out m,
    compress_block inner_c r data = Done (out, m)
    /\ decompress_block inner_d r out m = inner_d data (md_copy m)
    /\ layers_applied (md_copy m) = []
    /\ integrity_hash (md_copy m) = sha256 data
    /\ original_size (md_copy m) = N.of_nat (length data).
Proof.
  intros Hc Hne Hm Hid.
  destruct (scan_terminates (sorted_patterns r) data) with
    (fuel := length data) (i := 0%nat) as [toks Hs].
  { intros p pid Hin. apply (Hne p pid). now apply sorted_patterns_In. }
  { lia. }
  assert (Hdec : Forall (decodable r) toks).
  { apply (scan_decodable r data _ _ _ Hc Hs).
    intros b Hb ->. apply Hm.
    pose proof (scan_tokens _ _ _ _ _ Hs) as Hfrom.
    rewrite Forall_forall in Hfrom. specialize (Hfrom _ Hb).
    destruct Hfrom as [i [Hi [-> _]]]. now apply byte_at_In. }
  pose proof (roundtrip_of_scan r data toks Hs Hdec) as Hrt.
  destruct (compress_of_scan r data toks Hs) as [m0 [Hcomp [Hh [_ [_ Hl]]]]].
  unfold roundtrip in Hrt. rewrite Hcomp in Hrt.
  unfold compress_block. rewrite Hcomp.
  destruct (inner_c (flat_map emit toks)) as [final_out final_meta] eqn:Ei.
  assert (final_out = flat_map emit toks)
    by (rewrite <- (Hid (flat_map emit toks)), Ei; reflexivity).
  subst final_out. rewrite bytes_eqb_refl.
  eexists _, _. split; [reflexivity|].
  split; [|split; [|split]].
  - unfold decompress_block.
    rewrite (decompress_hash_only r _ _ m0) by (simpl; now rewrite Hh).
    now rewrite Hrt.
  - simpl. now rewrite Hl.
  - reflexivity.
  - reflexivity.
Qed.

Lemma block_roundtrip_unchanged_pipeline_witness :
  registry_consistent example_registry
  /\ patterns_nonempty example_registry
  /\ ~ In ESCAPE_BYTE example_input
  /\ (forall b, fst (idle_pipeline b) = b)
  /\ exists out m,
       compress_block idle_pipeline example_registry example_input
       = Done (out, m)
       /\ decompress_block (fun b _ => Done b) example_registry out m
          = Done example_input
       /\ layers_applied (md_copy m) = []
       /\ integrity_hash (md_copy m) = sha256 example_input
       /\ original_size (md_copy m) = N.of_nat (length example_input).
Proof.
  assert (H1 : registry_consistent example_registry)
    by apply registry_of_consistent.
  assert (H3 : ~ In ESCAPE_BYTE example_input)
    by (simpl; intuition discriminate).
  assert (H4 : forall b, fst (idle_pipeline b) = b) by reflexivity.
  split; [exact H1|]. split; [exact example_registry_nonempty|].
  split; [exact H3|]. split; [exact H4|].
  exact (block_roundtrip_unchanged_pipeline idle_pipeline
           (fun b _ => Done b) example_registry example_input
           H1 example_registry_nonempty H3 H4).
Defined.

(** X17. When the inner pipeline changed the bytes, decompress_block runs
    the codec's decompress on the pipeline's output, not on the codec's
    own output: it returns a result only if the pipeline's output, read as
    a stream of literals and pointers, rebuilds bytes with the digest of
    the original data, and then the inner pipeline's decompress side is
    called on those rebuilt bytes, with metadata from which this layer has
    been removed. *)
Theorem block_roundtrip_changed_pipeline inner_c inner_d r data
  l8_out l8_meta final_out final_meta :
  compress r data = Done (l8_out, l8_meta) ->
  inner_c l8_out = (final_out, final_meta) ->
  final_out <> l8_out ->
  exists m,
    compress_block inner_c r data = Done (final_out, m)
    /\ ~ In L8_ULTRA_EXTREME_MAPPING (layers_applied (md_copy m))
    /\ (forall result,
          decompress_block inner_d r final_out m = Done result ->
          exists rebuilt,
            reconstruct r final_out = Done rebuilt
            /\ sha256 rebuilt = sha256 data
            /\ inner_d rebuilt (md_copy m) = Done result).
Proof.
  intros Hc Hi Hne. unfold compress_block. rewrite Hc, Hi.
  apply bytes_eqb_neq in Hne. rewrite Hne.
  eexists. split; [reflexivity|]. split; [apply md_copy_without_layer8|].
  intros result. unfold decompress_block.
  match goal with
  | |- context [decompress r final_out ?m] =>
      destruct (decompress r final_out m) as [rebuilt| |] eqn:D;
      try discriminate;
      apply decompress_Done_digest in D;
      [|simpl; apply sha256_nonempty]
  end.
  destruct D as [D1 D2]. simpl in D2. intros H. eauto.
Qed.

Lemma block_roundtrip_changed_pipeline_witness :
  compress example_registry example_input
  = Done (example_l8_out, example_l8_meta)
  /\ appending_pipeline example_l8_out
     = (example_l8_out ++ [x00], snd (appending_pipeline example_l8_out))
  /\ example_l8_out ++ [x00] <> example_l8_out
  /\ exists m,
       compress_block appending_pipeline example_registry example_input
       = Done (example_l8_out ++ [x00], m)
       /\ ~ In L8_ULTRA_EXTREME_MAPPING (layers_applied (md_copy m))
       /\ (forall result,
             decompress_block (fun b _ => Done (removelast b))
               example_registry (example_l8_out ++ [x00]) m = Done result ->
             exists rebuilt,
               reconstruct example_registry (example_l8_out ++ [x00])
               = Done rebuilt
               /\ sha256 rebuilt = sha256 example_input
               /\ (fun b (_ : CompressionMetadata) => Done (removelast b))
                    rebuilt (md_copy m) = Done result).
Proof.
  assert (H1 : compress example_registry example_input
               = Done (example_l8_out, example_l8_meta))
    by (vm_compute; reflexivity).
  assert (H2 : appending_pipeline example_l8_out
               = (example_l8_out ++ [x00],
                  snd (appending_pipeline example_l8_out))) by reflexivity.
  assert (H3 : example_l8_out ++ [x00] <> example_l8_out) by discriminate.
  split; [exact H1|]. split; [exact H2|]. split; [exact H3|].
  exact (block_roundtrip_changed_pipeline appending_pipeline
           (fun b _ => Done (removelast b)) example_registry example_input
           example_l8_out example_l8_meta _ _ H1 H2 H3).
Defined.

(* ================================================================== *)
(** * Short inputs of deserialize *)

(** X18. On an input of fewer than four bytes deserialize leaves the
    registry untouched: the empty input is accepted as a snapshot with
    nothing in it, and one to three bytes raise the struct error. *)
Theorem deserialize_short_input r data :
  (length data < 4)%nat ->
  deserialize r data
  = (r, match data with [] => Done tt | _ :: _ => Raise StructError end).
Proof.
  intros H. unfold deserialize. rewrite firstn_all2 by lia.
  destruct data as [|b0 data]; [reflexivity|].
  now rewrite (unpack_u32_short (b0 :: data) H).
Qed.

Lemma deserialize_short_input_witness :
  (length [x00; x00; x01] < 4)%nat
  /\ deserialize example_registry [x00; x00; x01]
     = (example_registry, Raise StructError).
Proof.
  assert (H : (length [x00; x00; x01] < 4)%nat) by (simpl; lia).
  split; [exact H|].
  exact (deserialize_short_input example_registry [x00; x00; x01] H).
Defined.

(* ================================================================== *)
(** * Registries that deserialize has merged *)

Lemma fold_register_reachable ps : forall r,
  reachable r -> reachable (fold_left (fun r p => snd (register r p)) ps r).
Proof.
  induction ps as [|p ps IH]; intros r H; simpl; [assumption|].
  apply IH. now apply reachable_register.
Qed.

Lemma registry_of_reachable ps : reachable (registry_of ps).
Proof. apply fold_register_reachable. constructor. Qed.

(** C10 (counterexample). The registry that holds AA, A and BB after the
    snapshot of the registry holding AAAA was merged into it is reachable
    through register and deserialize and has no empty pattern, and the
    input AA holds no marker byte; yet AA is compressed to a pointer to
    identifier 0, which now resolves to AAAA, and decompress stops at the
    digest check. *)
Lemma merged_registry_roundtrip_fails :
  reachable merged_registry
  /\ patterns_nonempty merged_registry
  /\ ~ In ESCAPE_BYTE [x41; x41]
  /\ reconstruct merged_registry [xfe; x00] = Done [x41; x41; x41; x41]
  /\ roundtrip merged_registry [x41; x41] = Raise IntegrityError.
Proof.
  split; [|split; [|split; [|split]]].
  - apply reachable_deserialize, registry_of_reachable.
  - intros p pid H. vm_compute in H.
    repeat (destruct H as [H|H]; [injection H as <- _; discriminate|]).
    destruct H.
  - simpl. intuition discriminate.
  - vm_compute. reflexivity.
  - vm_compute. reflexivity.
Qed.

(* ================================================================== *)
(** * Inputs in which no registered pattern occurs *)

(** X19. An input in which no registered pattern occurs at any position is
    returned by compress unchanged, byte for byte, with equal original and
    compressed size. *)
Theorem compress_returns_unmatched_input r data :
  (forall q qid i, In (q, qid) (pattern_to_id r) ->
     (i < length data)%nat -> startswith data q i = false) ->
  exists m,
    compress r data = Done (data, m)
    /\ compressed_size m = original_size m.
Proof.
  intros Hnone.
  destruct (compress_of_scan r data (map Lit data))
    as [m [Hc [_ [Ho [Hs _]]]]].
  - rewrite (scan_all_literal (sorted_patterns r) data) with
      (fuel := length data) (i := 0%nat); [reflexivity | | lia].
    intros i Hi. apply find_match_None. intros p pid Hin.
    apply (Hnone p pid i); [now apply sorted_patterns_In | exact Hi].
  - rewrite flat_map_emit_Lit in *. exists m. split; [exact Hc|]. congruence.
Qed.

Lemma compress_returns_unmatched_input_witness :
  (forall q qid i,
      In (q, qid) (pattern_to_id example_registry) ->
      (i < length [x41; x41; x42])%nat ->
      startswith [x41; x41; x42] q i = false)
  /\ exists m,
       compress example_registry [x41; x41; x42] = Done ([x41; x41; x42], m)
       /\ compressed_size m = original_size m.
Proof.
  assert (H : forall q qid i,
             In (q, qid) (pattern_to_id example_registry) ->
             (i < length [x41; x41; x42])%nat ->
             startswith [x41; x41; x42] q i = false).
  { intros q qid i Hin Hi. simpl in Hin. destruct Hin as [[= <- <-]|[]].
    destruct i as [|[|[|i]]]; [reflexivity | reflexivity | reflexivity |].
    simpl in Hi. lia. }
  split; [exact H|].
  exact (compress_returns_unmatched_input example_registry [x41; x41; x42] H).
Defined.
